(** * Gateway client core of buildkit's frontend (package grpcclient)

    A shallow embedding of the parts of [grpcclient] that the specification
    talks about: the environment decoder [opts], the per-process mailbox
    [procMessageForwarder], the exec multiplexer [messageForwarder], the
    event loop of [container.Start], and the [Solve] / [Run] data path.

    Go values are modelled as follows.
    - [map[string]T] that is only looked up and updated: [gmap string T];
      a map that is ranged over: an association list in iteration order
      (the statements quantify over every order).
    - [error]: the inductive [error] below; a nil error is [None].
    - a [select] over channels: the list of outcomes of the cases that can
      proceed (Go picks one of them pseudo-randomly); the empty list means
      that the goroutine blocks.
    - RPCs: the daemon is a record of response functions, every issued call
      is appended to the [wire]. *)

From Stdlib Require Import ZArith String Ascii List Lia.
From Stdlib Require Import DecimalString.
From stdpp Require Import base option list gmap strings fin_maps.

Import ListNotations.
Local Open Scope string_scope.
Local Open Scope Z_scope.

Set Default Proof Using "Type".

(** ** Strings: the fragment of package [strings] used by the client *)

Module Strings.

(** [strings.HasPrefix s p]. *)
Fixpoint HasPrefix (s p : string) {struct p} : bool :=
  match p, s with
  | EmptyString, _ => true
  | String a p', String b s' => if Ascii.eqb a b then HasPrefix s' p' else false
  | String _ _, EmptyString => false
  end.

(** [strings.Cut s sep] for a one-byte separator: the text before and after
    the first occurrence of [sep], or [None] when [sep] does not occur. *)
Fixpoint Cut (s : string) (sep : ascii) : option (string * string) :=
  match s with
  | EmptyString => None
  | String c r =>
      if Ascii.eqb c sep then Some (EmptyString, r)
      else match Cut r sep with
           | Some (a, b) => Some (String c a, b)
           | None => None
           end
  end.

(** [strings.SplitN s sep 2] for a one-byte separator: one part when [sep]
    does not occur, otherwise the parts around its first occurrence. *)
Definition SplitN2 (s : string) (sep : ascii) : list string :=
  match Cut s sep with
  | None => [s]
  | Some (a, b) => [a; b]
  end.

(** [strings.Contains s sep] for a one-byte [sep]. *)
Fixpoint ContainsByte (s : string) (sep : ascii) : bool :=
  match s with
  | EmptyString => false
  | String c r => if Ascii.eqb c sep then true else ContainsByte r sep
  end.

End Strings.

(** ** Environment decoder (function [opts]) *)

Module Env.
Import Strings.

Definition frontendPrefix : string := "BUILDKIT_FRONTEND_OPT_".

(** [parts[0]] of a non-empty split. *)
Definition part0 (parts : list string) : string := nth 0 parts "".

(** [v := ""; if len(parts) == 2 { v = parts[1] }]. *)
Definition part1_or_empty (parts : list string) : string :=
  if Nat.eqb (length parts) 2 then nth 1 parts "" else "".

(** One iteration of the loop of [opts] over [os.Environ()]. *)
Definition opts_step (opts : gmap string string) (env : string) : gmap string string :=
  let parts := SplitN2 env "=" in
  let k := part0 parts in
  let v := part1_or_empty parts in
  if negb (HasPrefix k frontendPrefix) then opts
  else
    let parts := SplitN2 v "=" in
    let v := part1_or_empty parts in
    <[part0 parts := v]> opts.

(** [opts()], with [os.Environ()] passed as the list [environ]. *)
Definition opts (environ : list string) : gmap string string :=
  foldl opts_step ∅ environ.

(** Decimal rendering of an index ([%d]). *)
Definition itoa (n : nat) : string := NilEmpty.string_of_uint (Nat.to_uint n).

(** Modelled from the spec: the encoder of frontend options is not part of
    the sources at hand.  The spec (4.2, 6) fixes its output: one variable
    per option, named [BUILDKIT_FRONTEND_OPT_*], whose value is
    [name=value].  The variables are numbered in the order in which the
    options are enumerated. *)
Definition encode_entry (i : nat) (kv : string * string) : string :=
  frontendPrefix ++ itoa i ++ "=" ++ kv.1 ++ "=" ++ kv.2.

Fixpoint encode_from (i : nat) (l : list (string * string)) : list string :=
  match l with
  | [] => []
  | kv :: rest => encode_entry i kv :: encode_from (S i) rest
  end.

Definition RunFrontendOptEnv (m : gmap string string) : list string :=
  encode_from 0 (map_to_list m).

End Env.

(** ** Wire types (package pb) and errors *)

(** A [[]byte] is a sequence of 8-bit characters, as a Rocq [string] is. *)
Abbreviation bytes := string (only parsing).

(** [spb.Status]: the RPC status triple. *)
Record Status := mkStatus {
  Status_Code : Z;
  Status_Message : string;
  Status_Details : list bytes }.

(** [pb.FdMessage]. *)
Record FdMessage := mkFdMessage {
  Fd : Z;
  EOF : bool;
  Data : bytes }.

(** [pb.InitMessage] with the fields [container.Start] fills in. *)
Record InitMessage := mkInitMessage {
  Init_ContainerID : string;
  Init_Args : list string;
  Init_Env : list string;
  Init_Cwd : string;
  Init_User : string;
  Init_Tty : bool;
  Init_Fds : list Z }.

(** The [Input] oneof of [pb.ExecMessage].  [Exit] carries the exit code and
    the optional status message ([exit.Error] is a pointer). *)
Inductive ExecInput : Type :=
| Init (init : InitMessage)
| File (file : FdMessage)
| Resize (Cols Rows : Z)
| Signal (Name : string)
| Started
| Exit (Code : Z) (Error : option Status)
| Done.

(** [pb.ExecMessage]; a message without payload has [Input = None]. *)
Record ExecMessage := mkExecMessage {
  ProcessID : string;
  Input : option ExecInput }.

(** Arguments of a format string, kept unrendered. *)
Inductive fmtarg : Type :=
| ArgString (s : string)
| ArgInt (z : Z)
| ArgType (goType : string)
| ArgInput (i : option ExecInput).

(** Go [error] values.  [CapError] is the typed failure of
    [apicaps.CapSet.Supports], [ExitError] is [pb.ExitError], [StatusError] an
    error that carries an RPC status, [Opaque] any error produced outside
    this package (transport, writers, the build function). *)
#[warnings="-register-all"]
Inductive error : Type :=
| CapError (ID : string)
| Errorf (format : string) (args : list fmtarg)
| Wrapf (err : error) (format : string)
| StatusError (st : Status)
| ExitError (ExitCode : Z) (Err : option error)
| Opaque (tag : string).

(** What a call can do: return, panic, or block forever. *)
Inductive outcome (A : Type) : Type :=
| Returned (a : A)
| Panicked (why : string)
| Blocked.
Arguments Returned {A} a.
Arguments Panicked {A} why.
Arguments Blocked {A}.

(** ** What the package takes from outside

    Constants of package [pb], the signal table of [moby/sys/signal], and the
    helpers of [status], [grpcerrors], [encoding/json] and
    [frontend/gateway/client] are not part of the sources at hand; the
    development is parametric in them. *)
Class Externals := {
  (** capability ids of package [pb] *)
  CapReturnResult : string;
  CapReturnMap : string;
  CapProtoRefArray : string;
  CapGatewayEvaluateSolve : string;
  CapStatFile : string;
  CapGatewayExec : string;
  (** [pb.UnknownExitStatus] *)
  UnknownExitStatus : Z;
  (** [sigToName[sig]], the empty string for an unknown signal *)
  sigToName : Z → string;
  (** [errors.Is(err, io.EOF)] *)
  isEOF : error → bool;
  (** [grpcerrors.Code(err) == codes.Canceled] *)
  isCanceled : error → bool;
  (** [errors.Is(err, io.ErrClosedPipe)] *)
  isErrClosedPipe : error → bool;
  (** [grpcerrors.FromGRPC(status.ErrorProto(s))] *)
  statusError : Status → option error;
  (** [status.FromError(grpcerrors.ToGRPC(ctx, err))], as a proto *)
  toStatus : error → Status;
  (** [json.Marshal] of a metadata map *)
  json_Marshal : option (gmap string bytes) → bytes + error }.

(** ** Per-process mailbox ([procMessageForwarder])

    The mailbox is described as one goroutine sees it while no other
    goroutine is parked on it: [done] and [msgs] record whether the channel
    of that name has been closed, [closeOnce] whether the [sync.Once] has
    fired.  [msgs] is unbuffered, so without a parked partner a send or a
    receive on the open channel cannot proceed; on a closed channel a receive
    proceeds at once with the zero value and a send proceeds by panicking.
    A [select] chooses pseudo-randomly among the cases that can proceed:
    [Send], [Recv] and [Close] return one outcome per such choice, in the
    order of the cases in the source; the empty list means the call blocks.
    Every [Send] and [Recv] selects on [done] as well, so once [done] is
    closed no goroutine stays parked on [msgs]: from [Close] on, nothing is
    left out of this description. *)

Module Mailbox.

Record procMessageForwarder := mkProc {
  done : bool;
  closeOnce : bool;
  msgs : bool }.

Definition newProcMessageForwarder : procMessageForwarder :=
  {| done := false; closeOnce := false; msgs := false |}.

(** Outcome of one call together with the mailbox it leaves behind. *)
Definition step (A : Type) : Type := outcome (A * procMessageForwarder).

(** [b.closeOnce.Do(func() { close(b.msgs) })]. *)
Definition closeOnce_Do (b : procMessageForwarder) : step unit :=
  if closeOnce b then Returned (tt, b)
  else if msgs b then Panicked "close of closed channel"
  else Returned (tt, {| done := done b; closeOnce := true; msgs := true |}).

(** [Send(ctx, m)]; [ctxDone] tells whether [ctx.Done()] is closed. *)
Definition Send (ctxDone : bool) (m : option ExecMessage)
    (b : procMessageForwarder) : list (step unit) :=
  (if ctxDone then [Returned (tt, b)] else [])
  ++ (if done b then [closeOnce_Do b] else [])
  ++ (if msgs b then [Panicked "send on closed channel"] else []).

(** [Recv(ctx)]. *)
Definition Recv (ctxDone : bool) (b : procMessageForwarder)
  : list (step (option ExecMessage * bool)) :=
  (if ctxDone then [Returned ((None, true), b)] else [])
  ++ (if done b then [Returned ((None, false), b)] else [])
  ++ (if msgs b then [Returned ((None, true), b)] else []).

(** Sequencing of two calls, over every choice of the first. *)
Definition andThen {A B : Type} (xs : list (step A))
    (k : A → procMessageForwarder → list (step B)) : list (step B) :=
  flat_map (λ x, match x with
                 | Returned (a, b) => k a b
                 | Panicked why => [Panicked why]
                 | Blocked => [Blocked]
                 end) xs.

(** [Close()]: [close(b.done)], one [Recv], one [Send] of nil, both under
    [context.Background()]. *)
Definition Close (b : procMessageForwarder) : list (step unit) :=
  if done b then [Panicked "close of closed channel"]
  else
    let b := {| done := true; closeOnce := closeOnce b; msgs := msgs b |} in
    andThen (Recv false b) (λ _ b, Send false None b).

(** The mailbox [Close] leaves behind: both channels closed. *)
Definition closed_mailbox : procMessageForwarder :=
  {| done := true; closeOnce := true; msgs := true |}.

End Mailbox.

(** ** Exec multiplexer ([messageForwarder]) *)

(** What [stream.Recv()] yields: a message or an error. *)
Inductive RecvEvent : Type :=
| RecvMsg (msg : ExecMessage)
| RecvErr (err : error).

(** The client side of the [ExecProcess] stream: the messages written so
    far, the error every [Send] reports once the transport is broken, and
    what the inbound pump reads until the stream is cancelled. *)
Record ExecStream := mkStream {
  outbound : list ExecMessage;
  sendErr : option error;
  inbound : list RecvEvent }.

(** The daemon's answer to the [n]-th [ExecProcess] call. *)
Class ExecDaemon := { d_ExecProcess : nat → ExecStream + error }.

Record messageForwarder := mkMux {
  pids : gmap string Mailbox.procMessageForwarder;
  stream : option ExecStream;
  startOnce : bool;
  startErr : option error;
  canceled : bool;
  (** number of [ExecProcess] calls issued so far *)
  execCalls : nat }.

Definition newMessageForwarder : messageForwarder :=
  {| pids := ∅; stream := None; startOnce := false; startErr := None;
     canceled := false; execCalls := 0 |}.

(** [Start()].  The deferred function stores a non-nil result in
    [startErr]; the body of [startOnce.Do] runs on the first call only. *)
Definition Start `{!ExecDaemon} (m : messageForwarder)
  : option error * messageForwarder :=
  match startErr m with
  | Some e => (Some e, m)
  | None =>
      if startOnce m then (None, m)
      else
        match d_ExecProcess (execCalls m) with
        | inl s =>
            (None, {| pids := pids m; stream := Some s; startOnce := true;
                      startErr := None; canceled := canceled m;
                      execCalls := S (execCalls m) |})
        | inr e =>
            (Some e, {| pids := pids m; stream := None; startOnce := true;
                        startErr := Some e; canceled := canceled m;
                        execCalls := S (execCalls m) |})
        end
  end.

(** The inbound pump spawned by [Start]: its result is nil at EOF, at an
    RPC-level Canceled and when the stream stays idle until it is cancelled,
    and the receive error otherwise.  Routing a message to its mailbox does
    not change the result. *)
Fixpoint pump `{!Externals} (evs : list RecvEvent) : option error :=
  match evs with
  | [] => None
  | RecvErr e :: _ => if isEOF e || isCanceled e then None else Some e
  | RecvMsg _ :: rest => pump rest
  end.

(** [Release()]: cancel the supervising context and wait for the pump. *)
Definition Release `{!Externals} (m : messageForwarder)
  : option error * messageForwarder :=
  (match stream m with Some s => pump (inbound s) | None => None end,
   {| pids := pids m; stream := stream m; startOnce := startOnce m;
      startErr := startErr m; canceled := true; execCalls := execCalls m |}).

Definition set_stream (m : messageForwarder) (s : ExecStream) : messageForwarder :=
  {| pids := pids m; stream := Some s; startOnce := startOnce m;
     startErr := startErr m; canceled := canceled m; execCalls := execCalls m |}.

Definition set_pids (m : messageForwarder)
    (p : gmap string Mailbox.procMessageForwarder) : messageForwarder :=
  {| pids := p; stream := stream m; startOnce := startOnce m;
     startErr := startErr m; canceled := canceled m; execCalls := execCalls m |}.

(** [m.stream.Send(msg)]; the stream is nil until [Start] has succeeded. *)
Definition stream_Send (msg : ExecMessage) (m : messageForwarder)
  : outcome (option error * messageForwarder) :=
  match stream m with
  | None => Panicked "nil pointer dereference"
  | Some s =>
      match sendErr s with
      | Some e => Returned (Some e, m)
      | None =>
          Returned (None, set_stream m {| outbound := outbound s ++ [msg];
                                          sendErr := None;
                                          inbound := inbound s |})
      end
  end.

(** The error of [Send] for a process id that is not registered:
    [errors.Errorf] with the process id and the payload as arguments. *)
Definition process_ended (pid : string) (input : option ExecInput) : error :=
  Errorf "process %s has ended, not sending message %#v"
    [ArgString pid; ArgInput input].

(** [messageForwarder.Send(msg)]. *)
Definition Send (msg : ExecMessage) (m : messageForwarder)
  : outcome (option error * messageForwarder) :=
  match pids m !! ProcessID msg with
  | None => Returned (Some (process_ended (ProcessID msg) (Input msg)), m)
  | Some _ => stream_Send msg m
  end.

(** [Register(pid)]. *)
Definition Register (pid : string) (m : messageForwarder)
  : Mailbox.procMessageForwarder * messageForwarder :=
  let sender := Mailbox.newProcMessageForwarder in
  (sender, set_pids m (<[pid := sender]> (pids m))).

(** [Deregister(pid)]: remove the mailbox, then [Close] it. *)
Definition Deregister (pid : string) (m : messageForwarder)
  : list (outcome messageForwarder) :=
  match pids m !! pid with
  | None => [Returned m]
  | Some sender =>
      let m := set_pids m (delete pid (pids m)) in
      (λ r, match r with
            | Returned _ => Returned m
            | Panicked why => Panicked why
            | Blocked => Blocked
            end) <$> Mailbox.Close sender
  end.

(** [msgWriter.Write(msg)]. *)
Definition msgWriter_Write (processID : string) (fd : Z) (msg : bytes)
    (m : messageForwarder) : outcome ((Z * option error) * messageForwarder) :=
  match Send {| ProcessID := processID;
                Input := Some (File {| Fd := fd; EOF := false; Data := msg |}) |} m with
  | Returned (Some err, m) => Returned ((0, Some err), m)
  | Returned (None, m) => Returned ((Z.of_nat (String.length msg), None), m)
  | Panicked why => Panicked why
  | Blocked => Blocked
  end.

(** [containerProcess.Resize]. *)
Definition containerProcess_Resize (id : string) (Cols Rows : Z) (m : messageForwarder)
  : outcome (option error * messageForwarder) :=
  Send {| ProcessID := id; Input := Some (Resize Cols Rows) |} m.

(** [containerProcess.Signal]. *)
Definition containerProcess_Signal `{!Externals} (id : string) (sig : Z)
    (m : messageForwarder) : outcome (option error * messageForwarder) :=
  let name := sigToName sig in
  if String.eqb name "" then Returned (Some (Errorf "unknown signal %v" [ArgInt sig]), m)
  else Send {| ProcessID := id; Input := Some (Signal name) |} m.

(** The second task of [container.Start], present when the caller supplied
    stdin.  [io.Copy(m, stdinReader)] hands every chunk read from the stdin
    pipe to a [msgWriter] with fd 0 and stops at the first write error. *)
Fixpoint stdin_copy (pid : string) (chunks : list bytes) (m : messageForwarder)
  : outcome (option error * messageForwarder) :=
  match chunks with
  | [] => Returned (None, m)
  | chunk :: rest =>
      match msgWriter_Write pid 0 chunk m with
      | Returned ((_, Some err), m) => Returned (Some err, m)
      | Returned ((_, None), m) => stdin_copy pid rest m
      | Panicked why => Panicked why
      | Blocked => Blocked
      end
  end.

(** [readErr] is the error that ends the reading, nil at EOF.  An error
    other than [io.ErrClosedPipe] is the task's result; otherwise the task
    sends the final File-EOF message and returns what [Send] returns. *)
Definition stdin_copier `{!Externals} (pid : string) (chunks : list bytes)
    (readErr : option error) (m : messageForwarder)
  : outcome (option error * messageForwarder) :=
  match stdin_copy pid chunks m with
  | Returned (err, m) =>
      let err := match err with Some _ => err | None => readErr end in
      let eof := Send {| ProcessID := pid;
                         Input := Some (File {| Fd := 0; EOF := true; Data := "" |}) |} m in
      match err with
      | Some e => if isErrClosedPipe e then eof else Returned (Some e, m)
      | None => eof
      end
  | Panicked why => Panicked why
  | Blocked => Blocked
  end.

(** ** Event loop of a container process ([container.Start], [Wait]) *)

(** An [io.WriteCloser] handed in by the caller: what was written to it, and
    the error its [Write] reports, if it is broken. *)
Record Writer := mkWriter {
  written : list bytes;
  writeErr : option error }.

(** [out.Write(data)]. *)
Definition Writer_Write (w : Writer) (data : bytes) : option error * Writer :=
  match writeErr w with
  | Some e => (Some e, w)
  | None => (None, {| written := written w ++ [data]; writeErr := None |})
  end.

(** State of the third task of [container.Start]: whether [done] has been
    closed (through [closeDoneOnce]), the captured [exitError], and the
    writers [req.Stdout] and [req.Stderr]. *)
Record loopState := mkLoop {
  doneClosed : bool;
  exitError : option error;
  Stdout : option Writer;
  Stderr : option Writer }.

Definition loop_init (stdout stderr : option Writer) : loopState :=
  {| doneClosed := false; exitError := None; Stdout := stdout; Stderr := stderr |}.

(** [closeDoneOnce.Do(func() { close(done) })]. *)
Definition closeDone (st : loopState) : loopState :=
  {| doneClosed := true; exitError := exitError st;
     Stdout := Stdout st; Stderr := Stderr st |}.

Definition set_exitError (st : loopState) (e : option error) : loopState :=
  {| doneClosed := doneClosed st; exitError := e;
     Stdout := Stdout st; Stderr := Stderr st |}.

(** The [File] branch: pick the writer by fd, fail without one, write
    non-empty data.  [inl] carries the state to continue with, [inr] the
    error the loop returns. *)
Definition loop_file (file : FdMessage) (st : loopState) : loopState + error :=
  let out := if Fd file =? 1 then Stdout st
             else if Fd file =? 2 then Stderr st else None in
  match out with
  | None => inr (Errorf "missing writer for output fd %d" [ArgInt (Fd file)])
  | Some w =>
      if (0 <? String.length (Data file))%nat then
        match Writer_Write w (Data file) with
        | (Some err, _) => inr err
        | (None, w') =>
            inl (if Fd file =? 1
                 then {| doneClosed := doneClosed st; exitError := exitError st;
                         Stdout := Some w'; Stderr := Stderr st |}
                 else {| doneClosed := doneClosed st; exitError := exitError st;
                         Stdout := Stdout st; Stderr := Some w' |})
        end
      else inl st
  end.

(** The loop itself, over the successive results of [msgs.Recv(ctx)].
    [ctxCause] is [context.Cause(ctx)].  When the results are used up the
    task is parked in [Recv]. *)
Fixpoint eventLoop `{!Externals} (pid : string) (ctxCause : option error)
    (recvs : list (option ExecMessage * bool)) (st : loopState)
  : outcome (option error) * loopState :=
  match recvs with
  | [] => (Blocked, st)
  | (_, false) :: _ => (Returned (exitError st), st)
  | (None, true) :: _ => (Returned ctxCause, closeDone st)
  | (Some msg, true) :: rest =>
      match Input msg with
      | Some (File file) =>
          match loop_file file st with
          | inl st' => eventLoop pid ctxCause rest st'
          | inr err => (Returned (Some err), st)
          end
      | Some (Exit code status) =>
          let st := closeDone st in
          if code =? 0 then eventLoop pid ctxCause rest st
          else
            match status with
            | None => (Panicked "nil pointer dereference", st)
            | Some s =>
                let inner := statusError s in
                let e := if negb (code =? UnknownExitStatus)
                         then Some (ExitError code inner) else inner in
                eventLoop pid ctxCause rest (set_exitError st e)
            end
      | Some Done => (Returned (exitError st), st)
      | other =>
          (Returned (Some (Errorf "unexpected Exec Message for pid %s: %T"
                             [ArgString pid; ArgInput other])), st)
      end
  end.

(** What [Recv] hands to the loop for a message with payload [input]. *)
Definition received (pid : string) (input : ExecInput) : option ExecMessage * bool :=
  (Some {| ProcessID := pid; Input := Some input |}, true).

(** A received [File] message. *)
Definition is_file (r : option ExecMessage * bool) : Prop :=
  ∃ pid file, r = received pid (File file).

(** [errgroup.Group.Wait]: the first non-nil error, in the order in which
    the tasks finished. *)
Definition eg_Wait (results : list (option error)) : option error :=
  match List.filter (λ r : option error, match r with Some _ => true | None => false end) results with
  | r :: _ => r
  | [] => None
  end.

(** The value [containerProcess.Wait] returns.  The group holds the task that
    waits for [done] and closes the stdin pipe (it returns nil, and only once
    [done] is closed), the stdin copier when the caller supplied stdin
    ([copier] is its result), and the event loop.  [copierFirst] tells
    whether the copier finished before the loop. *)
Definition Wait_value (copier : option (option error)) (copierFirst : bool)
    (loop : outcome (option error) * loopState) : outcome (option error) :=
  match loop with
  | (Returned e, st) =>
      if doneClosed st then
        match copier with
        | None => Returned (eg_Wait [e])
        | Some c => Returned (eg_Wait (if copierFirst then [c; e] else [e; c]))
        end
      else Blocked
  | (Panicked why, _) => Panicked why
  | (Blocked, _) => Blocked
  end.

(** [containerProcess.Wait]: the value above, then the deferred
    [Deregister] of the process id. *)
Definition containerProcess_Wait (id : string) (copier : option (option error))
    (copierFirst : bool) (loop : outcome (option error) * loopState)
    (m : messageForwarder) : list (outcome (option error * messageForwarder)) :=
  match Wait_value copier copierFirst loop with
  | Returned e =>
      (λ r, match r with
            | Returned m' => Returned (e, m')
            | Panicked why => Panicked why
            | Blocked => Blocked
            end) <$> Deregister id m
  | Panicked why => [Panicked why]
  | Blocked => [Blocked]
  end.

(** ** Capability sets, references, results *)

(** Modelled from the spec: package [apicaps] is not part of the sources at
    hand.  A capability set maps capability ids to [enabled]; [Supports id]
    succeeds if the id is present and enabled, and otherwise fails with a
    typed missing-capability error naming [id] (spec, 3). *)
Definition Supports (caps : gmap string bool) (id : string) : option error :=
  match caps !! id with
  | Some true => None
  | _ => Some (CapError id)
  end.

(** [opspb.OpMetadata], of which [Solve] reads the capability tags.  The map
    [Caps] is ranged over: it is kept in iteration order. *)
Record OpMetadata := mkOpMetadata {
  Caps : list (string * bool) }.

(** [opspb.Definition]: the serialized graph and the per-node metadata, the
    latter in iteration order. *)
Record LLBDefinition := mkDefinition {
  Def : list bytes;
  Def_Metadata : list (string * OpMetadata) }.

(** [reference]; the back-pointer [c] is the client these functions are
    called with. *)
Record reference := mkReference {
  id : string;
  def : option LLBDefinition }.

(** A [client.Reference] that is not nil: a [*reference] of this package or
    a value of another type. *)
Inductive Reference : Type :=
| GrpcRef (r : reference)
| ForeignRef (goType : string).

(** [client.Attestation] and [pb.Attestation], with an uninterpreted body. *)
Record Attestation := mkAttestation {
  Att_body : string;
  Att_Ref : option Reference }.

(** [pb.Ref]. *)
Record pbRef := mkPbRef {
  Ref_Id : string;
  Ref_Def : option LLBDefinition }.

Record pbAttestation := mkPbAttestation {
  pbAtt_body : string;
  pbAtt_Ref : option pbRef }.

(** [client.Result].  [None] is a nil map; maps that are ranged over are
    kept in iteration order. *)
Record Result := mkResult {
  Result_Ref : option Reference;
  Result_Refs : option (list (string * option Reference));
  Result_Metadata : option (gmap string bytes);
  Result_Attestations : option (list (string * list Attestation)) }.

(** [client.NewResult()]. *)
Definition NewResult : Result :=
  {| Result_Ref := None; Result_Refs := None; Result_Metadata := None;
     Result_Attestations := None |}.

(** Assignment [m[k] = v] on a map kept as a list. *)
Fixpoint alist_set {V : Type} (k : string) (v : V) (m : list (string * V))
  : list (string * V) :=
  match m with
  | [] => [(k, v)]
  | (k', v') :: rest =>
      if String.eqb k k' then (k, v) :: rest else (k', v') :: alist_set k v rest
  end.

Fixpoint alist_get {V : Type} (k : string) (m : list (string * V)) : option V :=
  match m with
  | [] => None
  | (k', v') :: rest => if String.eqb k k' then Some v' else alist_get k rest
  end.

(** [res.SetRef(ref)]. *)
Definition SetRef (ref : option Reference) (res : Result) : Result :=
  {| Result_Ref := ref; Result_Refs := Result_Refs res;
     Result_Metadata := Result_Metadata res;
     Result_Attestations := Result_Attestations res |}.

(** Modelled from the spec: [Result.AddRef] and [Result.AddAttestation] live
    in package [client], outside the sources at hand.  A result holds a
    name→ref mapping and a name→ordered list of attestations (spec, 3);
    attestations are decoded per key in arrival order (spec, 4.4). *)
Definition AddRef (k : string) (ref : option Reference) (res : Result) : Result :=
  {| Result_Ref := Result_Ref res;
     Result_Refs := Some (alist_set k ref (default [] (Result_Refs res)));
     Result_Metadata := Result_Metadata res;
     Result_Attestations := Result_Attestations res |}.

Definition AddAttestation (k : string) (a : Attestation) (res : Result) : Result :=
  let m := default [] (Result_Attestations res) in
  {| Result_Ref := Result_Ref res; Result_Refs := Result_Refs res;
     Result_Metadata := Result_Metadata res;
     Result_Attestations := Some (alist_set k (default [] (alist_get k m) ++ [a])%list m) |}.

(** The attestation codec of package [client]. *)
Class AttestationCodec := {
  AttestationToPB : Attestation → pbAttestation + error;
  AttestationFromPB : pbAttestation → Attestation + error }.

(** ** Requests, responses and the daemon *)

(** The oneof [pb.Result.Result]. *)
Inductive pbResultKind : Type :=
| pbResult_RefDeprecated (RefDeprecated : string)
| pbResult_RefsDeprecated (Refs : list (string * string))
| pbResult_Ref (Ref : pbRef)
| pbResult_Refs (Refs : list (string * pbRef)).

Record pbResult := mkPbResult {
  pbResult_Result : option pbResultKind;
  pbResult_Metadata : option (gmap string bytes);
  pbResult_Attestations : option (list (string * list pbAttestation)) }.

Record CacheOptionsEntry := mkCacheOptionsEntry {
  Cache_Type : string;
  Cache_Attrs : gmap string string }.

(** [client.SolveRequest]. *)
Record SolveRequest := mkSolveRequest {
  creq_Evaluate : bool;
  creq_Definition : option LLBDefinition;
  creq_Frontend : string;
  creq_FrontendOpt : option (gmap string string);
  creq_FrontendInputs : option (gmap string LLBDefinition);
  creq_CacheImports : list CacheOptionsEntry;
  creq_SourcePolicies : list bytes }.

(** [pb.SolveRequest]. *)
Record pbSolveRequest := mkPbSolveRequest {
  Definition_ : option LLBDefinition;
  Frontend : string;
  FrontendOpt : option (gmap string string);
  FrontendInputs : option (gmap string LLBDefinition);
  AllowResultReturn : bool;
  AllowResultArrayRef : bool;
  CacheImports : list CacheOptionsEntry;
  SourcePolicies : list bytes;
  ExporterAttr : bytes;
  Final : bool;
  Evaluate : bool }.

(** [pb.SolveResponse]. *)
Record SolveResponse := mkSolveResponse {
  Resp_Ref : string;
  Resp_Result : option pbResult }.

(** [pb.ReturnRequest]. *)
Record ReturnRequest := mkReturnRequest {
  Return_Result : option pbResult;
  Return_Error : option Status }.

(** [client.Mount] and [opspb.Mount], with the fields [NewContainer] looks
    at and two of those it copies. *)
Record Mount := mkMount {
  Mount_Dest : string;
  Mount_Readonly : bool;
  Mount_ResultID : string;
  Mount_Ref : option Reference }.

Record pbMount := mkPbMount {
  pbMount_Dest : string;
  pbMount_Readonly : bool;
  pbMount_ResultID : string }.

(** [client.NewContainerRequest] and [pb.NewContainerRequest]; of the fields
    that are copied as they are, [Hostname] stands for all. *)
Record NewContainerRequest := mkNewContainerRequest {
  creq_Mounts : list Mount;
  creq_Hostname : string }.

Record pbNewContainerRequest := mkPbNewContainerRequest {
  ContainerID : string;
  Mounts : list pbMount;
  Hostname : string }.

(** The unary RPCs the model issues, as they appear on the wire. *)
Inductive Call : Type :=
| CallSolve (req : pbSolveRequest)
| CallReturn (req : ReturnRequest)
| CallStatFile (Ref Path : string)
| CallNewContainer (req : pbNewContainerRequest).

(** The daemon: its answer to a call, given the calls issued before. *)
Class Daemon := {
  d_Solve : list Call → pbSolveRequest → SolveResponse + error;
  d_Return : list Call → ReturnRequest → option error;
  d_StatFile : list Call → string → string → option error;
  d_NewContainer : list Call → pbNewContainerRequest → option error }.

(** [grpcClient]. *)
Record grpcClient := mkClient {
  opts : gmap string string;
  sessionID : string;
  product : string;
  caps : gmap string bool;
  llbCaps : gmap string bool;
  requests : gmap string pbSolveRequest;
  execMsgs : messageForwarder }.

(** The client together with the calls issued so far. *)
Record World := mkWorld {
  client : grpcClient;
  wire : list Call }.

Definition issue (call : Call) (w : World) : World :=
  {| client := client w; wire := wire w ++ [call] |}.

Definition set_requests (w : World) (r : gmap string pbSolveRequest) : World :=
  {| client := {| opts := opts (client w); sessionID := sessionID (client w);
                  product := product (client w); caps := caps (client w);
                  llbCaps := llbCaps (client w); requests := r;
                  execMsgs := execMsgs (client w) |};
     wire := wire w |}.

Definition set_execMsgs (w : World) (m : messageForwarder) : World :=
  {| client := {| opts := opts (client w); sessionID := sessionID (client w);
                  product := product (client w); caps := caps (client w);
                  llbCaps := llbCaps (client w); requests := requests (client w);
                  execMsgs := m |};
     wire := wire w |}.

(** ** The client's operations *)

(** [convertRef]. *)
Definition convertRef (ref : option Reference) : pbRef + error :=
  match ref with
  | None => inl {| Ref_Id := ""; Ref_Def := None |}
  | Some (GrpcRef r) => inl {| Ref_Id := id r; Ref_Def := def r |}
  | Some (ForeignRef t) =>
      inr (Errorf "invalid return reference type %T" [ArgType t])
  end.

(** [newReference]. *)
Definition newReference (ref : pbRef) : reference :=
  {| id := Ref_Id ref; def := Ref_Def ref |}.

(** The request [requestForRef] starts from when there is none cached. *)
Definition emptyReq : pbSolveRequest :=
  {| Definition_ := Some {| Def := []; Def_Metadata := [] |};
     Frontend := ""; FrontendOpt := None; FrontendInputs := None;
     AllowResultReturn := false; AllowResultArrayRef := false;
     CacheImports := []; SourcePolicies := []; ExporterAttr := "";
     Final := false; Evaluate := false |}.

(** The error of [requestForRef] for a ref id without a cached request. *)
Definition did_not_find (id : string) : error :=
  Errorf "did not find request for return reference %s" [ArgString id].

(** [requestForRef].  The request it returns is a pointer: next to the
    request, the result tells under which key of [c.requests] the request
    is stored ([None] for the fresh [emptyReq]). *)
Definition requestForRef (c : grpcClient) (ref : option Reference)
  : (pbSolveRequest * option string) + error :=
  match ref with
  | None => inl (emptyReq, None)
  | Some (ForeignRef t) =>
      inr (Errorf "return reference has invalid type %T" [ArgType t])
  | Some (GrpcRef r) =>
      if String.eqb (id r) "" then inl (emptyReq, None)
      else
        match requests c !! id r with
        | Some req => inl (req, Some (id r))
        | None => inr (did_not_find (id r))
        end
  end.

(** The capability ids [Solve] checks, in the order of its two loops. *)
Definition definition_caps (d : LLBDefinition) : list string :=
  flat_map (λ md : string * OpMetadata, (Caps md.2).*1) (Def_Metadata d).

(** The two loops at the head of [Solve]: the error of the first id that
    [llbCaps] does not support. *)
Fixpoint check_caps (llbCaps : gmap string bool) (ids : list string) : option error :=
  match ids with
  | [] => None
  | cap :: rest =>
      match Supports llbCaps cap with
      | Some err => Some err
      | None => check_caps llbCaps rest
      end
  end.

(** An option inherited from the ambient frontend options when the request
    does not set it. *)
Definition inherit_opt (key : string) (ambient : gmap string string)
    (fo : option (gmap string string)) : option (gmap string string) :=
  match fo ≫= (λ m : gmap string string, m !! key) with
  | Some _ => fo
  | None =>
      match ambient !! key with
      | Some v => Some (<[key := v]> (default ∅ fo))
      | None => fo
      end
  end.

(** The [pb.SolveRequest] that [Solve] sends for [creq]. *)
Definition solve_request `{!Externals} (c : grpcClient) (creq : SolveRequest)
  : pbSolveRequest :=
  {| Definition_ := creq_Definition creq;
     Frontend := creq_Frontend creq;
     FrontendOpt := inherit_opt "cache-from" (opts c)
                      (inherit_opt "cache-imports" (opts c) (creq_FrontendOpt creq));
     FrontendInputs := creq_FrontendInputs creq;
     AllowResultReturn := true;
     AllowResultArrayRef := true;
     CacheImports := creq_CacheImports creq;
     SourcePolicies := creq_SourcePolicies creq;
     ExporterAttr := match Supports (caps c) CapReturnResult with
                     | Some _ => "{}"
                     | None => ""
                     end;
     Final := false;
     Evaluate := match Supports (caps c) CapGatewayEvaluateSolve with
                 | None => creq_Evaluate creq
                 | Some _ => false
                 end |}.

(** Decoding of the refs of an embedded result (the type switch). *)
Definition decode_refs (kind : option pbResultKind) (res : Result) : Result :=
  match kind with
  | Some (pbResult_RefDeprecated id) =>
      if String.eqb id "" then res
      else SetRef (Some (GrpcRef {| id := id; def := None |})) res
  | Some (pbResult_RefsDeprecated refs) =>
      foldl (λ res kv,
               AddRef kv.1 (if String.eqb kv.2 "" then None
                            else Some (GrpcRef {| id := kv.2; def := None |})) res)
            res refs
  | Some (pbResult_Ref ref) =>
      if String.eqb (Ref_Id ref) "" then res
      else SetRef (Some (GrpcRef (newReference ref))) res
  | Some (pbResult_Refs refs) =>
      foldl (λ res (kv : string * pbRef),
               AddRef kv.1 (if String.eqb (Ref_Id kv.2) "" then None
                            else Some (GrpcRef (newReference kv.2))) res)
            res refs
  | None => res
  end.

(** Decoding of the attestations of one key; [a.Ref] is dereferenced. *)
Fixpoint decode_attestations `{!AttestationCodec} (p : string)
    (atts : list pbAttestation) (res : Result) : outcome (Result + error) :=
  match atts with
  | [] => Returned (inl res)
  | a :: rest =>
      match AttestationFromPB a with
      | inr err => Returned (inr err)
      | inl att =>
          match pbAtt_Ref a with
          | None => Panicked "nil pointer dereference"
          | Some ref =>
              let att := if String.eqb (Ref_Id ref) "" then att
                         else {| Att_body := Att_body att;
                                 Att_Ref := Some (GrpcRef (newReference ref)) |} in
              decode_attestations p rest (AddAttestation p att res)
          end
      end
  end.

Fixpoint decode_all_attestations `{!AttestationCodec}
    (m : list (string * list pbAttestation)) (res : Result)
  : outcome (Result + error) :=
  match m with
  | [] => Returned (inl res)
  | (p, atts) :: rest =>
      match decode_attestations p atts res with
      | Returned (inl res) => decode_all_attestations rest res
      | other => other
      end
  end.

(** [res.SetRef(&reference{id: id, c: c})] on a new result. *)
Definition single_ref_result (id : string) : Result :=
  SetRef (Some (GrpcRef {| id := id; def := None |})) NewResult.

(** Decoding of a [SolveResponse]; [req] is the request that was sent.  The
    legacy inline answer caches [req] under the ref id. *)
Definition decode_response `{!AttestationCodec} (req : pbSolveRequest)
    (resp : SolveResponse) (w : World) : outcome (Result + error) * World :=
  match Resp_Result resp with
  | None =>
      let w := if String.eqb (Resp_Ref resp) "" then w
               else set_requests w (<[Resp_Ref resp := req]> (requests (client w))) in
      (Returned (inl (single_ref_result (Resp_Ref resp))), w)
  | Some r =>
      let res := {| Result_Ref := None; Result_Refs := None;
                    Result_Metadata := pbResult_Metadata r;
                    Result_Attestations := None |} in
      let res := decode_refs (pbResult_Result r) res in
      match pbResult_Attestations r with
      | None => (Returned (inl res), w)
      | Some m => (decode_all_attestations m res, w)
      end
  end.

(** [reference.StatFile] on a reference of the client in [w]; the stat
    itself is dropped by the caller. *)
Definition reference_StatFile `{!Externals, !Daemon} (r : reference) (path : string)
    (w : World) : option error * World :=
  match Supports (caps (client w)) CapStatFile with
  | Some err => (Some err, w)
  | None => (d_StatFile (wire w) (id r) path, issue (CallStatFile (id r) path) w)
  end.

(** The refs [Result.EachRef] visits: the single ref, the refs of the map,
    the refs of the attestations; nil refs are skipped. *)
Definition result_refs (res : Result) : list Reference :=
  (option_list (Result_Ref res)
   ++ omap snd (default [] (Result_Refs res))
   ++ omap Att_Ref (flat_map snd (default [] (Result_Attestations res))))%list.

(** Modelled from the spec: [Result.EachRef] lives in package [client],
    outside the sources at hand.  The fallback of [Solve] calls
    [StatFile(".")] on every ref of the result and surfaces the first error
    (spec, 4.4).  [Solve] only puts references of this package in a result. *)
Fixpoint EachRef_StatFile `{!Externals, !Daemon} (refs : list Reference) (w : World)
  : option error * World :=
  match refs with
  | [] => (None, w)
  | ForeignRef _ :: rest => EachRef_StatFile rest w
  | GrpcRef r :: rest =>
      let '(err, w) := reference_StatFile r "." w in
      let '(err1, w) := EachRef_StatFile rest w in
      (match err with Some _ => err | None => err1 end, w)
  end.

(** [Solve].  The result pair is the pair of named results [(res, err)]. *)
Definition Solve `{!Externals, !Daemon, !AttestationCodec} (creq : SolveRequest)
    (w : World) : outcome (option Result * option error) * World :=
  let c := client w in
  match check_caps (llbCaps c)
          (match creq_Definition creq with
           | Some d => definition_caps d
           | None => []
           end) with
  | Some err => (Returned (None, Some err), w)
  | None =>
      let req := solve_request c creq in
      let fallback :=
        creq_Evaluate creq
        && bool_decide (Supports (caps c) CapGatewayEvaluateSolve ≠ None) in
      match d_Solve (wire w) req with
      | inr err => (Returned (None, Some err), issue (CallSolve req) w)
      | inl resp =>
          match decode_response req resp (issue (CallSolve req) w) with
          | (Returned (inl res), w) =>
              if fallback then
                let '(err, w) := EachRef_StatFile (result_refs res) w in
                (Returned (Some res, err), w)
              else (Returned (Some res, None), w)
          | (Returned (inr err), w) => (Returned (None, Some err), w)
          | (Panicked why, w) => (Panicked why, w)
          | (Blocked, w) => (Blocked, w)
          end
      end
  end.

(** ** Containers *)

(** The loop of [NewContainer] over [req.Mounts]: a mount with a ref takes
    the id of the ref as its result id; a ref of another type is an error. *)
Fixpoint convert_mounts (mounts : list Mount) : list pbMount + error :=
  match mounts with
  | [] => inl []
  | m :: rest =>
      match (match Mount_Ref m with
             | None => inl (Mount_ResultID m)
             | Some (GrpcRef ref) => inl (id ref)
             | Some (ForeignRef t) =>
                 inr (Errorf "unexpected type for reference, got %T" [ArgType t])
             end) with
      | inr err => inr err
      | inl resultID =>
          match convert_mounts rest with
          | inr err => inr err
          | inl rest =>
              inl ({| pbMount_Dest := Mount_Dest m;
                      pbMount_Readonly := Mount_Readonly m;
                      pbMount_ResultID := resultID |} :: rest)
          end
      end
  end.

(** [grpcClient.NewContainer]; [newID] is what [identity.NewID()] returns.
    The container it returns holds the id and shares the client's
    multiplexer. *)
Definition NewContainer `{!Externals, !Daemon, !ExecDaemon} (newID : string)
    (req : NewContainerRequest) (w : World) : (string + error) * World :=
  match Supports (caps (client w)) CapGatewayExec with
  | Some err => (inr err, w)
  | None =>
      match convert_mounts (creq_Mounts req) with
      | inr err => (inr err, w)
      | inl mounts =>
          let call := {| ContainerID := newID; Mounts := mounts;
                         Hostname := creq_Hostname req |} in
          match d_NewContainer (wire w) call with
          | Some err => (inr err, issue (CallNewContainer call) w)
          | None =>
              let w := issue (CallNewContainer call) w in
              let '(err, m) := Start (execMsgs (client w)) in
              (match err with Some err => inr err | None => inl newID end,
               set_execMsgs w m)
          end
      end
  end.

(** ** The Run driver *)

(** A [client.BuildFunc] applied to the client: it may use the client (issue
    calls, fill the request cache, start containers) and returns a result
    and an error. *)
Definition BuildFunc : Type := World → (option Result * option error) * World.

(** The loops of the deferred function over [res.Refs]: a ref that does not
    convert sets [retError] and is skipped. *)
Fixpoint convert_refs (refs : list (string * option Reference))
    (m : list (string * pbRef)) (retError : option error)
  : list (string * pbRef) * option error :=
  match refs with
  | [] => (m, retError)
  | (k, r) :: rest =>
      match convertRef r with
      | inr err => convert_refs rest m (Some err)
      | inl pbRef => convert_refs rest (alist_set k pbRef m) retError
      end
  end.

Fixpoint convert_refs_deprecated (refs : list (string * option Reference))
    (m : list (string * string)) (retError : option error)
  : list (string * string) * option error :=
  match refs with
  | [] => (m, retError)
  | (k, r) :: rest =>
      match convertRef r with
      | inr err => convert_refs_deprecated rest m (Some err)
      | inl pbRef => convert_refs_deprecated rest (alist_set k (Ref_Id pbRef) m) retError
      end
  end.

(** The inner loop over the attestations of one key. *)
Fixpoint convert_attestations `{!AttestationCodec} (k : string)
    (atts : list Attestation) (m : list (string * list pbAttestation))
    (retError : option error)
  : list (string * list pbAttestation) * option error :=
  match atts with
  | [] => (m, retError)
  | a :: rest =>
      match AttestationToPB a with
      | inr err => convert_attestations k rest m (Some err)
      | inl pbAtt =>
          match convertRef (Att_Ref a) with
          | inr err => convert_attestations k rest m (Some err)
          | inl pbRef =>
              let pbAtt := {| pbAtt_body := pbAtt_body pbAtt; pbAtt_Ref := Some pbRef |} in
              convert_attestations k rest
                (alist_set k (default [] (alist_get k m) ++ [pbAtt])%list m) retError
          end
      end
  end.

Fixpoint convert_all_attestations `{!AttestationCodec}
    (all : list (string * list Attestation)) (m : list (string * list pbAttestation))
    (retError : option error)
  : list (string * list pbAttestation) * option error :=
  match all with
  | [] => (m, retError)
  | (k, atts) :: rest =>
      let '(m, retError) := convert_attestations k atts m retError in
      convert_all_attestations rest m retError
  end.

(** Encoding of the result in the deferred function, entered with
    [retError == nil]: the [pb.Result] and the [retError] it leaves. *)
Definition encode_result `{!Externals, !AttestationCodec} (c : grpcClient)
    (res : Result) : pbResult * option error :=
  let protoRefArray := bool_decide (Supports (caps c) CapProtoRefArray = None) in
  let '(kind, retError) :=
    match Result_Refs res with
    | Some refs =>
        if protoRefArray then
          let '(m, e) := convert_refs refs [] None in (Some (pbResult_Refs m), e)
        else
          let '(m, e) := convert_refs_deprecated refs [] None in
          (Some (pbResult_RefsDeprecated m), e)
    | None =>
        match convertRef (Result_Ref res) with
        | inr err => (None, Some err)
        | inl pbRef =>
            if protoRefArray then (Some (pbResult_Ref pbRef), None)
            else (Some (pbResult_RefDeprecated (Ref_Id pbRef)), None)
        end
    end in
  let '(atts, retError) :=
    match Result_Attestations res with
    | Some all =>
        let '(m, e) := convert_all_attestations all [] retError in (Some m, e)
    | None => (None, retError)
    end in
  ({| pbResult_Result := kind; pbResult_Metadata := Result_Metadata res;
      pbResult_Attestations := atts |}, retError).

(** The first deferred function of [Run] (export mode): build the
    [ReturnRequest] from the result or from [retError], send it, and keep a
    transport error only when there is no error yet. *)
Definition return_deferred `{!Externals, !Daemon, !AttestationCodec}
    (res : option Result) (retError : option error) (w : World)
  : option error * World :=
  let '(result, retError) :=
    match retError with
    | Some _ => (None, retError)
    | None =>
        let '(pbRes, retError) := encode_result (client w) (default NewResult res) in
        (match retError with None => Some pbRes | Some _ => None end, retError)
    end in
  let req := {| Return_Result := result; Return_Error := toStatus <$> retError |} in
  let err := d_Return (wire w) req in
  (match err, retError with
   | Some e, None => Some e
   | _, _ => retError
   end, issue (CallReturn req) w).

(** The second deferred function of [Run]: release the exec multiplexer;
    [retError = err] under the guard [err != nil && retError != nil]. *)
Definition release_deferred `{!Externals} (retError : option error) (w : World)
  : option error * World :=
  let '(err, m) := Release (execMsgs (client w)) in
  (match err, retError with
   | Some e, Some _ => Some e
   | _, _ => retError
   end, set_execMsgs w m).

(** [req.Final = true; req.ExporterAttr = exportedAttrBytes]. *)
Definition final_request (req : pbSolveRequest) (exportedAttrBytes : bytes)
  : pbSolveRequest :=
  {| Definition_ := Definition_ req; Frontend := Frontend req;
     FrontendOpt := FrontendOpt req; FrontendInputs := FrontendInputs req;
     AllowResultReturn := AllowResultReturn req;
     AllowResultArrayRef := AllowResultArrayRef req;
     CacheImports := CacheImports req; SourcePolicies := SourcePolicies req;
     ExporterAttr := exportedAttrBytes; Final := true;
     Evaluate := Evaluate req |}.

(** The legacy return of [Run] ([!export]): re-issue the request that
    produced the ref, with [Final] and [ExporterAttr] set.  The request is
    updated in place, so a cached request changes in the cache too. *)
Definition legacy_return `{!Externals, !Daemon} (res : Result) (w : World)
  : option error * World :=
  match json_Marshal (Result_Metadata res) with
  | inr err => (Some (Wrapf err "failed to marshal return metadata"), w)
  | inl exportedAttrBytes =>
      match requestForRef (client w) (Result_Ref res) with
      | inr err => (Some (Wrapf err "failed to find return ref"), w)
      | inl (req, key) =>
          let req := final_request req exportedAttrBytes in
          let w := match key with
                   | Some k => set_requests w (<[k := req]> (requests (client w)))
                   | None => w
                   end in
          (match d_Solve (wire w) req with
           | inr err => Some (Wrapf err "failed to solve")
           | inl _ => None
           end, issue (CallSolve req) w)
      end
  end.

(** The guard in front of the return: a result with more than one ref needs
    [CapReturnMap]. *)
Definition return_map_gate `{!Externals} (c : grpcClient) (res : Result) : option error :=
  match Supports (caps c) CapReturnMap with
  | Some err => if (1 <? length (default [] (Result_Refs res)))%nat then Some err else None
  | None => None
  end.

(** The body of [Run] after the deferred functions are set up: the result of
    the build function and the value of [retError] at the [return]. *)
Definition Run_body `{!Externals, !Daemon} (export : bool) (f : BuildFunc)
    (w : World) : (option Result * option error) * World :=
  let '((res, err), w) := f w in
  match err with
  | Some e => ((res, Some e), w)
  | None =>
      match res with
      | None => ((res, None), w)
      | Some r =>
          match return_map_gate (client w) r with
          | Some e => ((res, Some e), w)
          | None =>
              if export then ((res, None), w)
              else let '(e, w) := legacy_return r w in ((res, e), w)
          end
      end
  end.

(** [grpcClient.Run]: the body, then the deferred functions in reverse
    order of their [defer] statements, release first. *)
Definition Run `{!Externals, !Daemon, !AttestationCodec} (f : BuildFunc)
    (w : World) : option error * World :=
  let export := bool_decide (Supports (caps (client w)) CapReturnResult = None) in
  let '((res, retError), w) := Run_body export f w in
  let '(retError, w) := release_deferred retError w in
  if export then return_deferred res retError w else (retError, w).

(** [n] successive calls of [Start]: their results in order, and the
    multiplexer they leave. *)
Fixpoint Start_calls `{!ExecDaemon} (n : nat) (m : messageForwarder)
  : list (option error) * messageForwarder :=
  match n with
  | O => ([], m)
  | S n =>
      let '(r, m) := Start m in
      let '(rs, m) := Start_calls n m in
      (r :: rs, m)
  end.

(** ** A concrete setting, for evaluating the model

    The capability ids and the sentinel are those of package [pb]; the other
    helpers are small stand-ins with the behaviour described above. *)

Definition demo_sigToName (sig : Z) : string :=
  if sig =? 2 then "INT" else if sig =? 9 then "KILL"
  else if sig =? 15 then "TERM" else "".

Definition demo_toStatus (err : error) : Status :=
  match err with
  | StatusError st => st
  | CapError id => {| Status_Code := 2; Status_Message := id; Status_Details := [] |}
  | Errorf format _ => {| Status_Code := 2; Status_Message := format; Status_Details := [] |}
  | Wrapf _ format => {| Status_Code := 2; Status_Message := format; Status_Details := [] |}
  | ExitError _ _ => {| Status_Code := 2; Status_Message := "exit code"; Status_Details := [] |}
  | Opaque tag => {| Status_Code := 2; Status_Message := tag; Status_Details := [] |}
  end.

(** A stand-in of [json.Marshal]: nil is [null], a map the list of its keys
    in braces. *)
Definition demo_json (md : option (gmap string bytes)) : bytes + error :=
  inl match md with
      | None => "null"
      | Some m => "{" ++ String.concat "," (map_to_list m).*1 ++ "}"
      end.

Definition demo_externals : Externals := {|
  CapReturnResult := "return";
  CapReturnMap := "returnmap";
  CapProtoRefArray := "proto.refarray";
  CapGatewayEvaluateSolve := "gateway.solve.evaluate";
  CapStatFile := "statfile";
  CapGatewayExec := "gateway.exec";
  UnknownExitStatus := 255;
  sigToName := demo_sigToName;
  isEOF := λ err, match err with Opaque tag => String.eqb tag "EOF" | _ => false end;
  isCanceled := λ err, match err with StatusError st => Status_Code st =? 1 | _ => false end;
  isErrClosedPipe := λ err, match err with
                            | Opaque tag => String.eqb tag "io: read/write on closed pipe"
                            | _ => false
                            end;
  statusError := λ st, if Status_Code st =? 0 then None else Some (StatusError st);
  toStatus := demo_toStatus;
  json_Marshal := demo_json |}.

(** The transport error of the demo: code 14, Unavailable. *)
Definition unavailable : error :=
  StatusError {| Status_Code := 14; Status_Message := "transport is closing";
                 Status_Details := [] |}.

(** An [ExecProcess] stream on which the inbound pump fails with
    [unavailable], and a daemon that opens it. *)
Definition broken_stream : ExecStream :=
  {| outbound := []; sendErr := Some unavailable; inbound := [RecvErr unavailable] |}.

Definition demo_exec_daemon : ExecDaemon := {|
  d_ExecProcess := λ _, inl broken_stream |}.

(** A daemon that answers every [Solve] with the legacy inline ref ["r1"]
    and accepts every [Return]. *)
Definition demo_daemon : Daemon := {|
  d_Solve := λ _ _, inl {| Resp_Ref := "r1"; Resp_Result := None |};
  d_Return := λ _ _, None;
  d_StatFile := λ _ _ _, None;
  d_NewContainer := λ _ _, None |}.

Definition demo_codec : AttestationCodec := {|
  AttestationToPB := λ a, inl {| pbAtt_body := Att_body a; pbAtt_Ref := None |};
  AttestationFromPB := λ a, inl {| Att_body := pbAtt_body a; Att_Ref := None |} |}.

(** A client as [New] builds it from the capability lists [caps] and
    [llbCaps]. *)
Definition new_client (caps llbCaps : gmap string bool) : grpcClient :=
  {| opts := ∅; sessionID := ""; product := ""; caps := caps; llbCaps := llbCaps;
     requests := ∅; execMsgs := newMessageForwarder |}.

Definition new_world (caps llbCaps : gmap string bool) : World :=
  {| client := new_client caps llbCaps; wire := [] |}.

(** A build function that creates a container, which opens the exec
    stream, and then returns [r]. *)
Definition container_then `{!Externals, !Daemon, !ExecDaemon}
    (r : option Result * option error) : BuildFunc :=
  λ w, (r, (NewContainer "c1" {| creq_Mounts := []; creq_Hostname := "" |} w).2).

(** A build function that calls [Solve] once and returns what it returns. *)
Definition solve_build `{!Externals, !Daemon, !AttestationCodec} (creq : SolveRequest)
  : BuildFunc :=
  λ w, let '(o, w) := Solve creq w in
       (match o with
        | Returned r => r
        | Panicked why => (None, Some (Opaque why))
        | Blocked => (None, Some (Opaque "blocked"))
        end, w).

(** The request and the results of the examples. *)
Definition demo_request : SolveRequest :=
  {| creq_Evaluate := false; creq_Definition := None; creq_Frontend := "";
     creq_FrontendOpt := None; creq_FrontendInputs := None;
     creq_CacheImports := []; creq_SourcePolicies := [] |}.

Definition two_refs : Result :=
  AddRef "b" (Some (GrpcRef {| id := "y"; def := None |}))
    (AddRef "a" (Some (GrpcRef {| id := "x"; def := None |})) NewResult).

(** A definition with one node, tagged with two capability ids. *)
Definition demo_definition : LLBDefinition :=
  {| Def := ["op"];
     Def_Metadata := [("sha256:0", {| Caps := [("source.image", true);
                                               ("exec.mount.ssh", true)] |})] |}.

(** A legacy peer announces [solve.base] only; a peer in export mode
    announces [return] and [gateway.exec], but here not [returnmap]. *)
Definition legacy_caps : gmap string bool := {["solve.base" := true]}.
Definition export_caps : gmap string bool :=
  <["gateway.exec" := true]> {["return" := true]}.

(** The call [container_then] leaves on the wire. *)
Definition demo_NewContainer : Call :=
  CallNewContainer {| ContainerID := "c1"; Mounts := []; Hostname := "" |}.

(** The build error of the examples. *)
Definition build_failed : error := Opaque "build failed".

(** The status the demo's [Return] carries for [unavailable]. *)
Definition unavailable_status : Status :=
  {| Status_Code := 14; Status_Message := "transport is closing"; Status_Details := [] |}.

(** The process of the examples: registered, on a stream whose transport
    has failed. *)
Definition demo_process : string := "c1:p1".

Definition demo_mux : messageForwarder :=
  {| pids := {[demo_process := Mailbox.newProcMessageForwarder]};
     stream := Some broken_stream; startOnce := true; startErr := None;
     canceled := false; execCalls := 1 |}.

(** * Properties *)

(** ** Strings *)

Section StringFacts.
Import Strings.

Lemma append_nil (s : string) : "" ++ s = s.
Proof. reflexivity. Qed.

Lemma append_cons (c : ascii) (s t : string) : String c s ++ t = String c (s ++ t).
Proof. reflexivity. Qed.

Lemma append_assoc (s t u : string) : (s ++ t) ++ u = s ++ (t ++ u).
Proof.
  induction s as [|c s IH]; [done|].
  rewrite !append_cons. by rewrite IH.
Qed.

Lemma HasPrefix_app p s : HasPrefix (p ++ s) p = true.
Proof.
  induction p as [|a p IH]; [done|].
  rewrite append_cons. simpl. by rewrite Ascii.eqb_refl.
Qed.

Lemma ContainsByte_app s t sep :
  ContainsByte (s ++ t) sep = ContainsByte s sep || ContainsByte t sep.
Proof.
  induction s as [|c s IH]; [done|].
  rewrite append_cons. simpl.
  destruct (Ascii.eqb c sep); [done|apply IH].
Qed.

Lemma Cut_none s sep : ContainsByte s sep = false → Cut s sep = None.
Proof.
  induction s as [|c s IH]; simpl; [done|].
  destruct (Ascii.eqb c sep); [done|].
  intros H. by rewrite (IH H).
Qed.

Lemma Cut_first a b sep :
  ContainsByte a sep = false →
  Cut (a ++ String sep b) sep = Some (a, b).
Proof.
  induction a as [|c a IH].
  - intros _. rewrite append_nil. simpl. by rewrite Ascii.eqb_refl.
  - rewrite append_cons. simpl. destruct (Ascii.eqb c sep); [done|].
    intros H. by rewrite (IH H).
Qed.

End StringFacts.

(** ** Environment decoder *)

Section EnvFacts.
Import Strings Env.

Lemma itoa_no_eq n : ContainsByte (itoa n) "=" = false.
Proof.
  unfold itoa. generalize (Nat.to_uint n). intros d.
  induction d as [|d IH|d IH|d IH|d IH|d IH|d IH|d IH|d IH|d IH|d IH]; simpl; auto.
Qed.

Lemma frontend_name_ok i :
  HasPrefix (frontendPrefix ++ itoa i) frontendPrefix = true
  ∧ ContainsByte (frontendPrefix ++ itoa i) "=" = false.
Proof.
  split; [apply HasPrefix_app|].
  rewrite ContainsByte_app, itoa_no_eq. reflexivity.
Qed.

(** A variable [name=value] with a frontend-option name contributes the
    split of its value. *)
Lemma opts_step_var name value acc :
  HasPrefix name frontendPrefix = true →
  ContainsByte name "=" = false →
  opts_step acc (name ++ String "=" value)
  = <[part0 (SplitN2 value "=") := part1_or_empty (SplitN2 value "=")]> acc.
Proof.
  intros Hp Hn. unfold opts_step. cbv zeta.
  assert (SplitN2 (name ++ String "=" value) "=" = [name; value]) as ->.
  { unfold SplitN2. by rewrite (Cut_first _ _ _ Hn). }
  change (part0 [name; value]) with name.
  change (part1_or_empty [name; value]) with value.
  by rewrite Hp.
Qed.

Lemma opts_step_malformed name value acc :
  HasPrefix name frontendPrefix = true →
  ContainsByte name "=" = false →
  ContainsByte value "=" = false →
  opts_step acc (name ++ String "=" value) = <[value := ""]> acc.
Proof.
  intros Hp Hn Hv. rewrite opts_step_var by done.
  unfold SplitN2. by rewrite (Cut_none _ _ Hv).
Qed.

Lemma encode_entry_eq i kv :
  encode_entry i kv
  = (frontendPrefix ++ itoa i) ++ String "=" (kv.1 ++ String "=" kv.2).
Proof. unfold encode_entry. by rewrite append_assoc. Qed.

Lemma opts_step_encoded i k v acc :
  ContainsByte k "=" = false →
  opts_step acc (encode_entry i (k, v)) = <[k := v]> acc.
Proof.
  intros Hk. rewrite encode_entry_eq.
  destruct (frontend_name_ok i) as [Hp Hn].
  rewrite opts_step_var by done.
  unfold SplitN2. simpl fst; simpl snd. by rewrite (Cut_first _ _ _ Hk).
Qed.

Lemma opts_encode_from (l : list (string * string)) : ∀ i acc,
  Forall (λ kv, ContainsByte kv.1 "=" = false) l →
  foldl opts_step acc (encode_from i l)
  = foldl (λ acc kv, <[kv.1 := kv.2]> acc) acc l.
Proof.
  induction l as [|[k v] l IH]; intros i acc Hl; [done|].
  inversion Hl as [|? ? Hk Hl']; subst. simpl in *.
  rewrite opts_step_encoded by done. by apply IH.
Qed.

Lemma foldl_insert_list_to_map (l : list (string * string)) : ∀ acc : gmap string string,
  NoDup l.*1 →
  foldl (λ acc kv, <[kv.1 := kv.2]> acc) acc l = list_to_map l ∪ acc.
Proof.
  induction l as [|[k v] l IH]; intros acc Hnd; simpl.
  - by rewrite (left_id_L ∅ (∪)).
  - inversion Hnd as [|? ? Hk Hnd']; subst.
    rewrite IH by done.
    rewrite <- insert_union_l.
    by rewrite insert_union_r by by apply not_elem_of_list_to_map_1.
Qed.

Lemma opts_snoc environ env :
  Env.opts (environ ++ [env])%list = opts_step (Env.opts environ) env.
Proof. unfold Env.opts. by rewrite foldl_app. Qed.

End EnvFacts.

Section EnvRoundTrip.
Import Strings Env.

(** Variables whose name lacks the prefix are skipped. *)
Lemma opts_step_other acc env :
  HasPrefix (part0 (SplitN2 env "=")) frontendPrefix = false →
  opts_step acc env = acc.
Proof. intros H. unfold opts_step. cbv zeta. by rewrite H. Qed.

Lemma foldl_opts_step_others others acc :
  Forall (λ env, HasPrefix (part0 (SplitN2 env "=")) frontendPrefix = false) others →
  foldl opts_step acc others = acc.
Proof.
  induction 1 as [|env others H _ IH]; [done|].
  simpl. by rewrite opts_step_other.
Qed.

(** C8, the claim as stated fails: an option name that contains '=' does not
    survive the round trip.  The option ["a=b" ↦ "c"] is encoded as
    [BUILDKIT_FRONTEND_OPT_0=a=b=c] and decoded as ["a" ↦ "b=c"]. *)
Lemma opts_roundtrip_loses_key_with_equals_sign :
  Env.opts (RunFrontendOptEnv {["a=b" := "c"]}) ≠ {["a=b" := "c"]}.
Proof.
  unfold RunFrontendOptEnv. rewrite map_to_list_singleton.
  intros H. apply (f_equal (λ m : gmap string string, m !! "a")) in H.
  vm_compute in H. discriminate H.
Qed.

(** C8 (amended): for every finite map of options whose names contain no
    '=', encoding it as [BUILDKIT_FRONTEND_OPT_*] variables with values
    [name=value] and decoding the environment (which may hold other
    variables, named without the prefix, in front) yields the original map;
    and a frontend-option variable whose value lacks an '=' is decoded as
    that value mapped to the empty string. *)
Theorem opts_roundtrip (m : gmap string string) (others environ : list string)
    (name value : string) :
  map_Forall (λ k _, ContainsByte k "=" = false) m →
  Forall (λ env, HasPrefix (part0 (SplitN2 env "=")) frontendPrefix = false) others →
  HasPrefix name frontendPrefix = true →
  ContainsByte name "=" = false →
  ContainsByte value "=" = false →
  Env.opts (others ++ RunFrontendOptEnv m) = m
  ∧ Env.opts (environ ++ [name ++ String "=" value])
    = <[value := ""]> (Env.opts environ).
Proof.
  intros Hm Hothers Hp Hn Hv. split.
  - unfold Env.opts, RunFrontendOptEnv.
    rewrite foldl_app, (foldl_opts_step_others others) by done.
    rewrite opts_encode_from.
    + rewrite foldl_insert_list_to_map by apply NoDup_fst_map_to_list.
      by rewrite (right_id_L ∅ (∪)), list_to_map_to_list.
    + apply Forall_forall. intros [k v] Hin. simpl.
      apply (Hm k v). by apply elem_of_map_to_list.
  - rewrite opts_snoc. by apply opts_step_malformed.
Qed.

Lemma opts_roundtrip_witness :
  Env.opts (["PATH=/usr/bin"; "HOME"] ++ RunFrontendOptEnv {["target" := "a=b"]})
  = {["target" := "a=b"]}
  ∧ Env.opts (["PATH=/usr/bin"] ++ ["BUILDKIT_FRONTEND_OPT_7=no-cache"])
    = <["no-cache" := ""]> (Env.opts ["PATH=/usr/bin"]).
Proof.
  apply (opts_roundtrip {["target" := "a=b"]} ["PATH=/usr/bin"; "HOME"]
           ["PATH=/usr/bin"] "BUILDKIT_FRONTEND_OPT_7" "no-cache").
  - apply map_Forall_singleton. reflexivity.
  - repeat constructor.
  - reflexivity.
  - reflexivity.
  - reflexivity.
Defined.

End EnvRoundTrip.

(** ** Exec multiplexer: [Start] and [Send] *)

Section MultiplexerFacts.
Context {daemon : ExecDaemon}.

(** Once a start has failed, [Start] returns the cached error and leaves
    the multiplexer as it is. *)
Lemma Start_failed m e : startErr m = Some e → Start m = (Some e, m).
Proof. intros Herr. unfold Start. by rewrite Herr. Qed.

(** Once the stream is open, [Start] returns nil and does nothing. *)
Lemma Start_started m :
  startErr m = None → startOnce m = true → Start m = (None, m).
Proof. intros H1 H2. unfold Start. by rewrite H1, H2. Qed.

Lemma Start_calls_failed n : ∀ m e,
  startErr m = Some e →
  Start_calls n m = (replicate n (Some e), m).
Proof.
  induction n as [|n IH]; intros m e Herr; simpl; [done|].
  rewrite (Start_failed m e Herr). by rewrite (IH m e Herr).
Qed.

Lemma Start_calls_started n : ∀ m,
  startErr m = None → startOnce m = true →
  Start_calls n m = (replicate n None, m).
Proof.
  induction n as [|n IH]; intros m H1 H2; simpl; [done|].
  rewrite (Start_started m H1 H2). by rewrite (IH m H1 H2).
Qed.

(** C7: in every sequence of calls of [Start] on a new multiplexer, the
    [ExecProcess] stream is opened by the first call and by no other (one
    [ExecProcess] call in all); if the first call fails with [e], it returns
    [e] and so does every later call; if it succeeds, every call returns
    nil. *)
Theorem Start_idempotent_fails_permanently (n : nat) :
  Start_calls (S n) newMessageForwarder
  = (replicate (S n) (match d_ExecProcess 0 with
                      | inl _ => None
                      | inr e => Some e
                      end),
     (Start newMessageForwarder).2)
  ∧ execCalls (Start_calls (S n) newMessageForwarder).2 = 1%nat
  ∧ execCalls (Start newMessageForwarder).2 = 1%nat.
Proof.
  assert (Start_calls (S n) newMessageForwarder
          = (replicate (S n) (match d_ExecProcess 0 with
                              | inl _ => None
                              | inr e => Some e
                              end),
             (Start newMessageForwarder).2)) as Heq.
  { simpl. unfold Start. simpl.
    destruct (d_ExecProcess 0) as [s|e]; simpl.
    - by rewrite Start_calls_started.
    - by rewrite (Start_calls_failed _ _ e). }
  split; [exact Heq|]. rewrite Heq. simpl.
  unfold Start. simpl. by destruct (d_ExecProcess 0).
Qed.

(** A message for an unregistered process id is refused, and the
    multiplexer, its stream included, stays as it is. *)
Lemma Send_unregistered m msg :
  pids m !! ProcessID msg = None →
  Send msg m = Returned (Some (process_ended (ProcessID msg) (Input msg)), m).
Proof. intros Hpid. unfold Send. by rewrite Hpid. Qed.

(** After [Deregister] the process id is not registered. *)
Lemma Deregister_unregisters pid m m' :
  Returned m' ∈ Deregister pid m → pids m' !! pid = None.
Proof.
  unfold Deregister. destruct (pids m !! pid) as [sender|] eqn:Hpid.
  - intros Hin. apply list_elem_of_fmap in Hin as [r [Hr _]].
    destruct r; inversion Hr; subst. simpl. apply lookup_delete_eq.
  - intros Hin. apply list_elem_of_singleton in Hin. by inversion Hin; subst.
Qed.

End MultiplexerFacts.

Section SendFacts.
Context {ext : Externals}.

(** C9: a message whose process id is not registered (never registered, or
    deregistered) makes [Send] return an error naming the process id, and
    nothing is written to the stream: the multiplexer is unchanged.  So
    [Resize], [Signal] and a stdin write for such a process return an
    error. *)
Theorem Send_unregistered_process_fails (m : messageForwarder) (msg : ExecMessage)
    (cols rows sig fd : Z) (data : bytes) :
  pids m !! ProcessID msg = None
  ∨ (∃ m0, Returned m ∈ Deregister (ProcessID msg) m0) →
  let pid := ProcessID msg in
  Send msg m = Returned (Some (process_ended pid (Input msg)), m)
  ∧ containerProcess_Resize pid cols rows m
    = Returned (Some (process_ended pid (Some (Resize cols rows))), m)
  ∧ (∃ err, containerProcess_Signal pid sig m = Returned (Some err, m))
  ∧ msgWriter_Write pid fd data m
    = Returned ((0, Some (process_ended pid
                            (Some (File {| Fd := fd; EOF := false; Data := data |})))), m).
Proof.
  intros Hm pid.
  assert (pids m !! pid = None) as Hpid.
  { destruct Hm as [Hm|[m0 Hm]]; [done|]. by eapply Deregister_unregisters. }
  repeat split.
  - by apply Send_unregistered.
  - unfold containerProcess_Resize. by rewrite Send_unregistered.
  - unfold containerProcess_Signal. destruct (String.eqb (sigToName sig) "").
    + eauto.
    + rewrite Send_unregistered by done. eauto.
  - unfold msgWriter_Write. by rewrite Send_unregistered.
Qed.

End SendFacts.

(** ** Per-process mailbox *)

Section MailboxFacts.
Import Mailbox.

(** [Close] of a new mailbox has a single outcome. *)
Lemma Close_new : Close newProcMessageForwarder = [Returned (tt, closed_mailbox)].
Proof. reflexivity. Qed.

(** After [Close], neither call blocks and no call changes the mailbox. *)
Lemma closed_mailbox_stable ctxDone m r :
  (r ∈ Recv ctxDone closed_mailbox → ∃ ok, r = Returned ((None, ok), closed_mailbox))
  ∧ Recv ctxDone closed_mailbox ≠ []
  ∧ Send ctxDone m closed_mailbox ≠ [].
Proof.
  split; [|by destruct ctxDone].
  unfold Recv. change (done closed_mailbox) with true.
  change (msgs closed_mailbox) with true.
  destruct ctxDone; simpl; intros Hin;
    repeat (apply elem_of_cons in Hin as [->|Hin]; [eauto|]);
    by apply not_elem_of_nil in Hin.
Qed.

(** C2, evaluated on the code: a mailbox is created and closed; then [Recv]
    and [Send] are called with a context that is not cancelled.  Both
    channels are closed, so [Recv] has two cases that can proceed, the one on
    [done], which returns (nil, false), and the one on [msgs], which returns
    the zero value with ok = true; and [Send] has the case on [done], which
    drops the message, and the send on the closed [msgs], which panics. *)
Theorem Recv_Send_after_Close :
  Close newProcMessageForwarder = [Returned (tt, closed_mailbox)]
  ∧ Recv false closed_mailbox
    = [Returned ((None, false), closed_mailbox);
       Returned ((None, true), closed_mailbox)]
  ∧ Send false (Some {| ProcessID := "c1:p1"; Input := Some Done |}) closed_mailbox
    = [Returned (tt, closed_mailbox); Panicked "send on closed channel"].
Proof. repeat split. Qed.

End MailboxFacts.

(** ** Event loop and [Wait] *)

Section EventLoopFacts.
Context {ext : Externals}.

(** Messages the loop has consumed without returning can be split off. *)
Lemma eventLoop_app pid cause pre : ∀ rest st st',
  eventLoop pid cause pre st = (Blocked, st') →
  eventLoop pid cause (pre ++ rest) st = eventLoop pid cause rest st'.
Proof.
  induction pre as [|[msg ok] pre IH]; intros rest st st' Hpre.
  - simpl in Hpre. by inversion Hpre.
  - simpl in *. destruct msg as [msg|], ok; try done.
    destruct (Input msg) as [[init|file|cols rows|name| |code status|]|]; try done.
    + destruct (loop_file file st) as [st1|err]; [by apply IH|done].
    + destruct (code =? 0); [by apply IH|].
      destruct status as [s|]; [by apply IH|done].
Qed.

Lemma loop_file_keeps file st st' :
  loop_file file st = inl st' →
  exitError st' = exitError st ∧ doneClosed st' = doneClosed st.
Proof.
  unfold loop_file.
  destruct (if Fd file =? 1 then _ else _) as [w|]; [|done].
  destruct (0 <? String.length (Data file))%nat; [|by intros [= <-]].
  destruct (Writer_Write w (Data file)) as [[err|] w']; [done|].
  destruct (Fd file =? 1); by intros [= <-].
Qed.

(** While only [File] messages arrive, no exit error is captured and
    [done] stays open. *)
Lemma eventLoop_files pid cause pre : ∀ st st',
  Forall is_file pre →
  eventLoop pid cause pre st = (Blocked, st') →
  exitError st' = exitError st ∧ doneClosed st' = doneClosed st.
Proof.
  induction pre as [|r pre IH]; intros st st' Hfiles Hpre.
  - simpl in Hpre. by inversion Hpre.
  - inversion Hfiles as [|? ? [p [file ->]] Hfiles']; subst.
    simpl in Hpre.
    destruct (loop_file file st) as [st1|err] eqn:Hfile; [|done].
    destruct (IH _ _ Hfiles' Hpre) as [-> ->].
    by apply loop_file_keeps in Hfile.
Qed.

(** What the loop returns for [Exit] followed by [Done], entered without a
    captured exit error. *)
Lemma eventLoop_Exit_Done pid cause code status rest st :
  exitError st = None →
  eventLoop pid cause (received pid (Exit code status) :: received pid Done :: rest) st
  = if code =? 0 then (Returned None, closeDone st)
    else match status with
         | None => (Panicked "nil pointer dereference", closeDone st)
         | Some s =>
             let e := if negb (code =? UnknownExitStatus)
                      then Some (ExitError code (statusError s))
                      else statusError s in
             (Returned e, set_exitError (closeDone st) e)
         end.
Proof.
  intros Hnone. simpl. destruct (code =? 0).
  - simpl. by rewrite Hnone.
  - by destruct status.
Qed.

End EventLoopFacts.

Section WaitFacts.
Context {ext : Externals}.

(** C3 (amended): for every container process whose stdin copier, if there
    is one, finishes without error: when the event loop, after [File]
    messages it has written out, receives [Exit] followed by [Done], [Wait]
    returns nil if the exit code is 0; if the code is not 0 and the message
    carries a status, it returns the error made from the status, wrapped in
    an [ExitError] with the code unless the code is [UnknownExitStatus], and
    bare if it is. *)
Theorem Wait_returns_exit_status (pid : string) (cause : option error)
    (stdout stderr : option Writer) (pre rest : list (option ExecMessage * bool))
    (st : loopState) (code : Z) (status : option Status)
    (copier : option (option error)) (copierFirst : bool) :
  Forall is_file pre →
  eventLoop pid cause pre (loop_init stdout stderr) = (Blocked, st) →
  copier = None ∨ copier = Some None →
  let recvs := (pre ++ received pid (Exit code status) :: received pid Done :: rest)%list in
  let wait := Wait_value copier copierFirst
                (eventLoop pid cause recvs (loop_init stdout stderr)) in
  (code = 0 → wait = Returned None)
  ∧ (∀ s, status = Some s → code ≠ 0 → code ≠ UnknownExitStatus →
       wait = Returned (Some (ExitError code (statusError s))))
  ∧ (∀ s, status = Some s → code ≠ 0 → code = UnknownExitStatus →
       wait = Returned (statusError s)).
Proof.
  intros Hfiles Hpre Hcopier recvs wait.
  destruct (eventLoop_files _ _ _ _ _ Hfiles Hpre) as [Hexit _].
  simpl in Hexit.
  assert (∀ e : option error, eg_Wait [e] = e) as Hone by (by intros [e|]).
  assert (∀ (e : option error) b,
            eg_Wait (if b : bool then [None; e] else [e; None]) = e) as Htwo
      by (by intros [e|] [|]).
  assert (∀ e st', doneClosed st' = true →
            Wait_value copier copierFirst (Returned e, st') = Returned e) as Hwait.
  { intros e st' Hdone. unfold Wait_value. rewrite Hdone.
    destruct Hcopier as [-> | ->]; by rewrite ?Hone, ?Htwo. }
  subst wait recvs.
  rewrite (eventLoop_app _ _ _ _ _ _ Hpre), (eventLoop_Exit_Done _ _ _ _ _ _ Hexit).
  repeat split.
  - intros ->. change (0 =? 0) with true. cbv iota. by apply Hwait.
  - intros s -> Hne Hunk.
    apply Z.eqb_neq in Hne as ->. apply Z.eqb_neq in Hunk as ->.
    cbv beta iota zeta. simpl negb. cbv iota. by apply Hwait.
  - intros s -> Hne Hunk.
    apply Z.eqb_neq in Hne as ->. apply Z.eqb_eq in Hunk as ->.
    cbv beta iota zeta. simpl negb. cbv iota. by apply Hwait.
Qed.

End WaitFacts.

Section WaitExamples.
#[local] Existing Instance demo_externals.

(** C3, the claim as stated fails: the caller supplied stdin, the stream
    reports [unavailable] on the copier's first write, and the event loop
    receives [Exit] with code 0 followed by [Done].  The copier's error is
    the only error of the group, so [Wait] returns it, not nil, whichever
    task finishes first. *)
Lemma Wait_returns_error_of_stdin_copier :
  stdin_copier demo_process ["hi"] None demo_mux = Returned (Some unavailable, demo_mux)
  ∧ Wait_value (Some (Some unavailable)) true
      (eventLoop demo_process None
         [received demo_process (Exit 0 None); received demo_process Done]
         (loop_init None None))
    = Returned (Some unavailable)
  ∧ Wait_value (Some (Some unavailable)) false
      (eventLoop demo_process None
         [received demo_process (Exit 0 None); received demo_process Done]
         (loop_init None None))
    = Returned (Some unavailable)
  ∧ Returned (Some unavailable) ≠ Returned (@None error).
Proof. repeat split. discriminate. Qed.

Lemma Wait_returns_exit_status_witness :
  let stderr := Some {| written := []; writeErr := None |} in
  let pre := [received demo_process (File {| Fd := 2; EOF := false; Data := "bad" |})] in
  let status := {| Status_Code := 2; Status_Message := "m"; Status_Details := [] |} in
  Wait_value (Some None) true
    (eventLoop demo_process None
       (pre ++ [received demo_process (Exit 0 None); received demo_process Done])%list
       (loop_init None stderr))
  = Returned None
  ∧ Wait_value (Some None) true
      (eventLoop demo_process None
         (pre ++ [received demo_process (Exit 3 (Some status)); received demo_process Done])%list
         (loop_init None stderr))
    = Returned (Some (ExitError 3 (Some (StatusError status))))
  ∧ Wait_value None false
      (eventLoop demo_process None
         (pre ++ [received demo_process (Exit 255 (Some status)); received demo_process Done])%list
         (loop_init None stderr))
    = Returned (Some (StatusError status)).
Proof.
  intros stderr pre status.
  pose (st := {| doneClosed := false; exitError := None; Stdout := None;
                 Stderr := Some {| written := ["bad"]; writeErr := None |} |}).
  assert (Forall is_file pre) as Hfiles.
  { repeat constructor. by exists demo_process, {| Fd := 2; EOF := false; Data := "bad" |}. }
  assert (eventLoop demo_process None pre (loop_init None stderr) = (Blocked, st))
    as Hpre by reflexivity.
  split; [|split].
  - destruct (Wait_returns_exit_status demo_process None None stderr pre [] st 0 None
                (Some None) true Hfiles Hpre (or_intror eq_refl)) as [H0 _].
    exact (H0 eq_refl).
  - destruct (Wait_returns_exit_status demo_process None None stderr pre [] st 3
                (Some status) (Some None) true Hfiles Hpre (or_intror eq_refl))
      as [_ [H3 _]].
    apply (H3 status eq_refl); [lia|discriminate].
  - destruct (Wait_returns_exit_status demo_process None None stderr pre [] st 255
                (Some status) None false Hfiles Hpre (or_introl eq_refl))
      as [_ [_ H255]].
    apply (H255 status eq_refl); [lia|reflexivity].
Defined.

End WaitExamples.

(** ** [Solve] *)

Section SolveFacts.
Context {ext : Externals} {daemon : Daemon} {codec : AttestationCodec}.

(** [check_caps] fails with the error of the first id that is not
    supported. *)
Lemma check_caps_Some llbCaps ids id :
  id ∈ ids → Supports llbCaps id ≠ None →
  ∃ pre id' post,
    ids = (pre ++ id' :: post)%list
    ∧ Forall (λ i, Supports llbCaps i = None) pre
    ∧ Supports llbCaps id' = Some (CapError id')
    ∧ check_caps llbCaps ids = Some (CapError id').
Proof.
  induction ids as [|i ids IH]; intros Hin Hunsup.
  - by apply not_elem_of_nil in Hin.
  - simpl. destruct (Supports llbCaps i) as [err|] eqn:Hi.
    + exists [], i, ids. unfold Supports in *.
      destruct (llbCaps !! i) as [[|]|]; inversion Hi; subst; by repeat split.
    + apply elem_of_cons in Hin as [->|Hin]; [done|].
      destruct (IH Hin Hunsup) as (pre & id' & post & -> & Hpre & Hid' & Hcheck).
      exists (i :: pre), id', post. repeat split; try done. by constructor.
Qed.

(** C4: if the request carries a definition and some capability id of its
    per-node metadata is not supported by the LLB capability set, [Solve]
    returns the missing-capability error of the first id whose check fails,
    an unsupported id of the definition (it is [id] itself when no other id
    is unsupported), and returns before anything happens: the client and the
    wire are as they were, so no Solve RPC has been issued. *)
Theorem Solve_fails_on_unsupported_capability (w : World) (creq : SolveRequest)
    (d : LLBDefinition) (id : string) :
  creq_Definition creq = Some d →
  id ∈ definition_caps d →
  Supports (llbCaps (client w)) id ≠ None →
  ∃ id',
    id' ∈ definition_caps d
    ∧ Supports (llbCaps (client w)) id' = Some (CapError id')
    ∧ Solve creq w = (Returned (None, Some (CapError id')), w)
    ∧ ((∀ i, i ∈ definition_caps d → Supports (llbCaps (client w)) i ≠ None → i = id)
       → id' = id).
Proof.
  intros Hd Hin Hunsup.
  destruct (check_caps_Some _ _ _ Hin Hunsup)
    as (pre & id' & post & Hids & Hpre & Hid' & Hcheck).
  assert (id' ∈ definition_caps d) as Hin'.
  { rewrite Hids. apply elem_of_app. right. apply list_elem_of_here. }
  exists id'. repeat split; try done.
  - unfold Solve. by rewrite Hd, Hcheck.
  - intros Honly. apply Honly; [done|]. by rewrite Hid'.
Qed.

End SolveFacts.

Section SolveLegacyInline.
Context {ext : Externals} {daemon : Daemon} {codec : AttestationCodec}.

(** A call on the wire leaves the client as it is. *)
Lemma client_issue call w : client (issue call w) = client w.
Proof. reflexivity. Qed.

Lemma reference_StatFile_frame r path w :
  client (reference_StatFile r path w).2 = client w
  ∧ ∃ more, wire (reference_StatFile r path w).2 = (wire w ++ more)%list.
Proof.
  unfold reference_StatFile.
  destruct (Supports (caps (client w)) CapStatFile); simpl.
  - split; [done|]. exists []. by rewrite app_nil_r.
  - split; [done|]. by eexists.
Qed.

(** The evaluate fallback only adds [StatFile] calls. *)
Lemma EachRef_StatFile_frame refs : ∀ w,
  client (EachRef_StatFile refs w).2 = client w
  ∧ ∃ more, wire (EachRef_StatFile refs w).2 = (wire w ++ more)%list.
Proof.
  induction refs as [|[r|t] refs IH]; intros w; simpl.
  - split; [done|]. exists []. by rewrite app_nil_r.
  - destruct (reference_StatFile_frame r "." w) as [Hc [more Hw]].
    destruct (reference_StatFile r "." w) as [err w1]. simpl in *.
    destruct (IH w1) as [Hc1 [more1 Hw1]].
    destruct (EachRef_StatFile refs w1) as [err1 w2]. simpl in *.
    split; [congruence|]. exists (more ++ more1)%list.
    by rewrite Hw1, Hw, app_assoc.
  - apply IH.
Qed.

(** The legacy inline answer: a single-ref result, and the request that was
    sent is cached under the ref id. *)
Lemma Solve_legacy_inline (w : World) (creq : SolveRequest) (resp : SolveResponse) :
  check_caps (llbCaps (client w))
    (match creq_Definition creq with Some d => definition_caps d | None => [] end) = None →
  d_Solve (wire w) (solve_request (client w) creq) = inl resp →
  Resp_Result resp = None →
  Resp_Ref resp ≠ "" →
  ∃ err w',
    Solve creq w = (Returned (Some (single_ref_result (Resp_Ref resp)), err), w')
    ∧ requests (client w') !! Resp_Ref resp = Some (solve_request (client w) creq)
    ∧ ∃ more, wire w' = (wire w ++ CallSolve (solve_request (client w) creq) :: more)%list.
Proof.
  intros Hcheck Hresp Hres Href.
  unfold Solve. rewrite Hcheck, Hresp. unfold decode_response. rewrite Hres.
  apply String.eqb_neq in Href. rewrite Href.
  set (req := solve_request (client w) creq).
  set (w1 := set_requests _ _).
  assert (requests (client w1) !! Resp_Ref resp = Some req) as Hcached
    by apply lookup_insert_eq.
  assert (wire w1 = (wire w ++ [CallSolve req])%list) as Hwire by reflexivity.
  destruct (creq_Evaluate creq && _).
  - destruct (EachRef_StatFile_frame (result_refs (single_ref_result (Resp_Ref resp))) w1)
      as [Hc [more Hw]].
    destruct (EachRef_StatFile _ w1) as [err w2]. simpl in *.
    exists err, w2. repeat split; [by rewrite Hc|].
    exists more. by rewrite Hw, <- app_assoc.
  - exists None, w1. repeat split; [done|]. by exists [].
Qed.

End SolveLegacyInline.

(** ** The Run driver *)

Section RunFacts.
Context {ext : Externals} {daemon : Daemon} {codec : AttestationCodec}.

(** With an error at hand, the deferred return sends the error and keeps
    it, whatever the daemon answers. *)
Lemma return_deferred_error res e w :
  return_deferred res (Some e) w
  = (Some e, issue (CallReturn {| Return_Result := None;
                                  Return_Error := Some (toStatus e) |}) w).
Proof. unfold return_deferred. simpl. by destruct (d_Return _ _). Qed.

Lemma return_deferred_client res retError w :
  client (return_deferred res retError w).2 = client w.
Proof.
  unfold return_deferred.
  destruct retError as [e|]; [done|].
  by destruct (encode_result _ _) as [pbRes [e|]].
Qed.

Lemma release_deferred_spec retError w :
  release_deferred retError w
  = (match (Release (execMsgs (client w))).1, retError with
     | Some r, Some _ => Some r
     | _, _ => retError
     end,
     set_execMsgs w (Release (execMsgs (client w))).2).
Proof. reflexivity. Qed.

(** On every exit path [Run] has released the multiplexer. *)
Lemma Run_releases f w : canceled (execMsgs (client (Run f w).2)) = true.
Proof.
  unfold Run.
  destruct (Run_body _ f w) as [[res retError] w1].
  rewrite release_deferred_spec.
  destruct (bool_decide _); [by rewrite return_deferred_client|done].
Qed.

(** When the body of [Run] returns an error, [Run] returns it, unless the
    release of the multiplexer reports an error too: then [Run] returns the
    error of the release. *)
Lemma Run_error_of_body f w res e w1 :
  Run_body (bool_decide (Supports (caps (client w)) CapReturnResult = None)) f w
  = ((res, Some e), w1) →
  (Run f w).1 = Some (default e (Release (execMsgs (client w1))).1).
Proof.
  intros Hbody. unfold Run. rewrite Hbody, release_deferred_spec.
  destruct (Release (execMsgs (client w1))).1 as [r|]; simpl;
    destruct (bool_decide _); by rewrite ?return_deferred_error.
Qed.

Lemma Run_body_failed_build export f w res e w1 :
  f w = ((res, Some e), w1) → Run_body export f w = ((res, Some e), w1).
Proof. intros Hf. unfold Run_body. by rewrite Hf. Qed.

Lemma Run_body_gate export f w res e w1 :
  f w = ((Some res, None), w1) →
  return_map_gate (client w1) res = Some e →
  Run_body export f w = ((Some res, Some e), w1).
Proof. intros Hf Hgate. unfold Run_body. by rewrite Hf, Hgate. Qed.

Lemma Run_body_legacy f w res w1 :
  f w = ((Some res, None), w1) →
  return_map_gate (client w1) res = None →
  Run_body false f w
  = ((Some res, (legacy_return res w1).1), (legacy_return res w1).2).
Proof.
  intros Hf Hgate. unfold Run_body. rewrite Hf, Hgate.
  by destruct (legacy_return res w1).
Qed.

(** In legacy mode the calls [Run] leaves on the wire are those of its
    body: the release issues none. *)
Lemma Run_legacy_wire f w :
  Supports (caps (client w)) CapReturnResult ≠ None →
  wire (Run f w).2 = wire (Run_body false f w).2
  ∧ (Run f w).1 = (release_deferred (Run_body false f w).1.2 (Run_body false f w).2).1.
Proof.
  intros Hlegacy. unfold Run. rewrite bool_decide_eq_false_2 by done.
  destruct (Run_body false f w) as [[res retError] w1].
  by rewrite release_deferred_spec.
Qed.

(** The three ways the lookup of the legacy return ends. *)
Lemma requestForRef_fresh c ref :
  ref = None ∨ (∃ r, ref = Some (GrpcRef r) ∧ id r = "") →
  requestForRef c ref = inl (emptyReq, None).
Proof. intros [->|[r [-> Hid]]]; [done|]. simpl. by rewrite Hid. Qed.

Lemma requestForRef_cached c r req :
  id r ≠ "" → requests c !! id r = Some req →
  requestForRef c (Some (GrpcRef r)) = inl (req, Some (id r)).
Proof.
  intros Hid Hreq. simpl. apply String.eqb_neq in Hid. by rewrite Hid, Hreq.
Qed.

Lemma requestForRef_did_not_find c ref i :
  requestForRef c ref = inr (did_not_find i)
  ↔ ∃ r, ref = Some (GrpcRef r) ∧ id r = i ∧ i ≠ "" ∧ requests c !! i = None.
Proof.
  split.
  - destruct ref as [[r|t]|]; simpl; [|done|done].
    destruct (String.eqb (id r) "") eqn:Hid; [done|].
    destruct (requests c !! id r) eqn:Hreq; [done|].
    intros [= <-]. exists r. apply String.eqb_neq in Hid. by repeat split.
  - intros (r & -> & <- & Hid & Hreq). simpl.
    apply String.eqb_neq in Hid. by rewrite Hid, Hreq.
Qed.

Lemma legacy_return_wire res w b req key :
  json_Marshal (Result_Metadata res) = inl b →
  requestForRef (client w) (Result_Ref res) = inl (req, key) →
  wire (legacy_return res w).2 = (wire w ++ [CallSolve (final_request req b)])%list
  ∧ requests (client (legacy_return res w).2)
    = match key with
      | Some k => <[k := final_request req b]> (requests (client w))
      | None => requests (client w)
      end.
Proof.
  intros Hjson Hreq. unfold legacy_return. rewrite Hjson, Hreq. simpl.
  by destruct key.
Qed.

Lemma legacy_return_missing res w b r :
  json_Marshal (Result_Metadata res) = inl b →
  Result_Ref res = Some (GrpcRef r) →
  id r ≠ "" → requests (client w) !! id r = None →
  legacy_return res w
  = (Some (Wrapf (did_not_find (id r)) "failed to find return ref"), w).
Proof.
  intros Hjson Href Hid Hreq. unfold legacy_return. rewrite Hjson, Href.
  assert (requestForRef (client w) (Some (GrpcRef r)) = inr (did_not_find (id r))) as ->.
  { apply requestForRef_did_not_find. by exists r. }
  done.
Qed.

End RunFacts.

Section RunClaims.
Context {ext : Externals} {daemon : Daemon} {codec : AttestationCodec}.

Lemma return_map_gate_single c res :
  (length (default [] (Result_Refs res)) ≤ 1)%nat → return_map_gate c res = None.
Proof.
  intros Hlen. unfold return_map_gate.
  destruct (Supports (caps c) CapReturnMap); [|done].
  by rewrite (proj2 (Nat.ltb_ge _ _) Hlen).
Qed.

(** A result with more than one ref, returned to a peer without
    [CapReturnMap]: [Run] fails and the result is not returned; the error is
    the capability error when the release of the multiplexer reports none. *)
Lemma Run_multi_ref_without_ReturnMap f w res w1 e :
  f w = ((Some res, None), w1) →
  (1 < length (default [] (Result_Refs res)))%nat →
  Supports (caps (client w1)) CapReturnMap = Some e →
  (Run f w).1 = Some (default e (Release (execMsgs (client w1))).1)
  ∧ ∃ err,
      wire (Run f w).2
      = if bool_decide (Supports (caps (client w)) CapReturnResult = None)
        then (wire w1 ++ [CallReturn {| Return_Result := None;
                                        Return_Error := Some (toStatus err) |}])%list
        else wire w1.
Proof.
  intros Hf Hlen Hcap.
  assert (return_map_gate (client w1) res = Some e) as Hgate.
  { unfold return_map_gate. by rewrite Hcap, (proj2 (Nat.ltb_lt _ _) Hlen). }
  split.
  - eapply Run_error_of_body. by apply Run_body_gate.
  - unfold Run. rewrite (Run_body_gate _ _ _ _ _ _ Hf Hgate), release_deferred_spec.
    destruct (bool_decide _).
    + destruct (Release (execMsgs (client w1))).1 as [r|];
        rewrite return_deferred_error; by eexists.
    + by exists e.
Qed.

(** C5: a [Solve] that is answered without an embedded result but with a
    ref id returns the single-ref result of that id, and the request it sent
    is cached under the id; a [Run] in legacy mode whose build function
    returns a result with such a ref (and at most one entry in [Refs])
    issues the cached request once more, with [Final] set and [ExporterAttr]
    equal to the JSON encoding of the result's metadata. *)
Theorem legacy_inline_Solve_then_Run (w : World) (creq : SolveRequest)
    (resp : SolveResponse) (f : BuildFunc) (w0 w1 : World) (res : Result)
    (r : reference) (req : pbSolveRequest) (b : bytes) :
  check_caps (llbCaps (client w))
    (match creq_Definition creq with Some d => definition_caps d | None => [] end) = None →
  d_Solve (wire w) (solve_request (client w) creq) = inl resp →
  Resp_Result resp = None →
  Resp_Ref resp ≠ "" →
  Supports (caps (client w0)) CapReturnResult ≠ None →
  f w0 = ((Some res, None), w1) →
  Result_Ref res = Some (GrpcRef r) →
  id r ≠ "" →
  (length (default [] (Result_Refs res)) ≤ 1)%nat →
  requests (client w1) !! id r = Some req →
  json_Marshal (Result_Metadata res) = inl b →
  (∃ err w',
     Solve creq w = (Returned (Some (single_ref_result (Resp_Ref resp)), err), w')
     ∧ requests (client w') !! Resp_Ref resp = Some (solve_request (client w) creq))
  ∧ (∃ sent,
       wire (Run f w0).2 = (wire w1 ++ [CallSolve sent])%list
       ∧ sent = final_request req b
       ∧ Final sent = true
       ∧ ExporterAttr sent = b).
Proof.
  intros Hcheck Hresp Hres Href Hlegacy Hf Hr Hid Hlen Hreq Hjson. split.
  - destruct (Solve_legacy_inline w creq resp Hcheck Hresp Hres Href)
      as (err & w' & Hsolve & Hcached & _).
    by exists err, w'.
  - exists (final_request req b). repeat split.
    destruct (Run_legacy_wire f w0 Hlegacy) as [-> _].
    rewrite (Run_body_legacy f w0 res w1 Hf (return_map_gate_single _ _ Hlen)). simpl.
    eapply legacy_return_wire; [done|].
    rewrite Hr. by apply requestForRef_cached.
Qed.

(** C10 (amended): in a [Run] in legacy mode whose result passes the
    [CapReturnMap] guard and whose metadata is marshalled to [b]: if the
    result's ref is nil or has an empty id, the lookup yields the new empty
    request and the final [Solve] is issued on it, with [Final] and
    [ExporterAttr]; if the ref has a non-empty id without a cached request,
    the lookup fails with the did-not-find error, no [Solve] is issued and
    [Run] fails, with that error (wrapped) when the release of the
    multiplexer reports none; the lookup fails in that way in no other
    case. *)
Theorem legacy_return_lookup (f : BuildFunc) (w w1 : World) (res : Result) (b : bytes) :
  Supports (caps (client w)) CapReturnResult ≠ None →
  f w = ((Some res, None), w1) →
  return_map_gate (client w1) res = None →
  json_Marshal (Result_Metadata res) = inl b →
  ((Result_Ref res = None ∨ (∃ r, Result_Ref res = Some (GrpcRef r) ∧ id r = "")) →
     requestForRef (client w1) (Result_Ref res) = inl (emptyReq, None)
     ∧ wire (Run f w).2 = (wire w1 ++ [CallSolve (final_request emptyReq b)])%list)
  ∧ (∀ r, Result_Ref res = Some (GrpcRef r) → id r ≠ "" →
       requests (client w1) !! id r = None →
       requestForRef (client w1) (Result_Ref res) = inr (did_not_find (id r))
       ∧ wire (Run f w).2 = wire w1
       ∧ (Run f w).1 ≠ None
       ∧ ((Release (execMsgs (client w1))).1 = None →
            (Run f w).1 = Some (Wrapf (did_not_find (id r)) "failed to find return ref")))
  ∧ (∀ i, requestForRef (client w1) (Result_Ref res) = inr (did_not_find i)
          ↔ ∃ r, Result_Ref res = Some (GrpcRef r) ∧ id r = i ∧ i ≠ ""
                 ∧ requests (client w1) !! i = None).
Proof.
  intros Hlegacy Hf Hgate Hjson.
  destruct (Run_legacy_wire f w Hlegacy) as [Hwire Herr].
  rewrite (Run_body_legacy f w res w1 Hf Hgate) in Hwire, Herr.
  cbn [fst snd] in Hwire, Herr.
  split; [|split].
  - intros Hfresh.
    pose proof (requestForRef_fresh (client w1) _ Hfresh) as Hreq.
    split; [done|]. rewrite Hwire. by eapply legacy_return_wire.
  - intros r Hr Hid Hnone.
    rewrite (legacy_return_missing res w1 b r Hjson Hr Hid Hnone) in Hwire, Herr.
    cbn [fst snd] in Hwire, Herr.
    rewrite release_deferred_spec in Herr. cbn [fst snd] in Herr.
    repeat split.
    + apply requestForRef_did_not_find. by exists r.
    + done.
    + rewrite Herr. by destruct (Release (execMsgs (client w1))).1.
    + intros Hrel. by rewrite Herr, Hrel.
  - intros i. apply requestForRef_did_not_find.
Qed.

End RunClaims.

(** ** The model evaluated *)

Section Evaluated.
#[local] Existing Instance demo_externals.
#[local] Existing Instance demo_daemon.
#[local] Existing Instance demo_exec_daemon.
#[local] Existing Instance demo_codec.

Lemma Send_unregistered_process_fails_witness :
  Send {| ProcessID := "c1:p9"; Input := Some (Signal "TERM") |} demo_mux
  = Returned (Some (process_ended "c1:p9" (Some (Signal "TERM"))), demo_mux)
  ∧ containerProcess_Resize "c1:p9" 80 24 demo_mux
    = Returned (Some (process_ended "c1:p9" (Some (Resize 80 24))), demo_mux)
  ∧ (∃ err, containerProcess_Signal "c1:p9" 15 demo_mux = Returned (Some err, demo_mux))
  ∧ msgWriter_Write "c1:p9" 0 "hi" demo_mux
    = Returned ((0, Some (process_ended "c1:p9"
                            (Some (File {| Fd := 0; EOF := false; Data := "hi" |})))),
                demo_mux).
Proof.
  apply (Send_unregistered_process_fails demo_mux
           {| ProcessID := "c1:p9"; Input := Some (Signal "TERM") |} 80 24 15 0 "hi").
  left. reflexivity.
Defined.

Lemma Solve_fails_on_unsupported_capability_witness :
  let w := new_world legacy_caps {["source.image" := true]} in
  let creq := {| creq_Evaluate := false; creq_Definition := Some demo_definition;
                 creq_Frontend := ""; creq_FrontendOpt := None;
                 creq_FrontendInputs := None; creq_CacheImports := [];
                 creq_SourcePolicies := [] |} in
  Solve creq w = (Returned (None, Some (CapError "exec.mount.ssh")), w).
Proof.
  intros w creq.
  assert ("exec.mount.ssh" ∈ definition_caps demo_definition) as Hin
    by (right; left).
  assert (Supports (llbCaps (client w)) "exec.mount.ssh" ≠ None) as Hunsup
    by (vm_compute; discriminate).
  destruct (Solve_fails_on_unsupported_capability w creq demo_definition
              "exec.mount.ssh" eq_refl Hin Hunsup) as (id' & _ & _ & Hsolve & Honly).
  rewrite Honly in Hsolve; [exact Hsolve|].
  intros i Hi Hu.
  apply elem_of_cons in Hi as [->|Hi]; [by vm_compute in Hu|].
  apply list_elem_of_singleton in Hi. exact Hi.
Defined.

Lemma legacy_inline_Solve_then_Run_witness :
  let w := new_world legacy_caps ∅ in
  let req := solve_request (client w) demo_request in
  (∃ err w',
     Solve demo_request w = (Returned (Some (single_ref_result "r1"), err), w')
     ∧ requests (client w') !! "r1" = Some req)
  ∧ (∃ sent,
       wire (Run (solve_build demo_request) w).2
       = (wire (solve_build demo_request w).2 ++ [CallSolve sent])%list
       ∧ sent = final_request req "null"
       ∧ Final sent = true
       ∧ ExporterAttr sent = "null").
Proof.
  intros w req.
  apply (legacy_inline_Solve_then_Run w demo_request
           {| Resp_Ref := "r1"; Resp_Result := None |}
           (solve_build demo_request) w (solve_build demo_request w).2
           (single_ref_result "r1") {| id := "r1"; def := None |} req "null").
  - reflexivity.
  - reflexivity.
  - reflexivity.
  - discriminate.
  - vm_compute. discriminate.
  - reflexivity.
  - reflexivity.
  - discriminate.
  - simpl. lia.
  - reflexivity.
  - reflexivity.
Defined.

(** C10, the claim as stated fails: a legacy peer, and a build function
    that returns a result with two entries in [Refs] and a nil [Ref].  The
    guard for [CapReturnMap] fails the [Run]: no final [Solve] is issued. *)
Lemma Run_legacy_nil_ref_stopped_by_ReturnMap_guard :
  let w := new_world legacy_caps ∅ in
  let f : BuildFunc := λ w, ((Some two_refs, None), w) in
  Supports (caps (client w)) CapReturnResult = Some (CapError "return")
  ∧ Result_Ref two_refs = None
  ∧ (Run f w).1 = Some (CapError "returnmap")
  ∧ wire (Run f w).2 = [].
Proof. repeat split. Qed.

Lemma legacy_return_lookup_witness :
  let w := new_world legacy_caps ∅ in
  let nil_ref : BuildFunc := λ w, ((Some NewResult, None), w) in
  let stale := {| id := "r9"; def := None |} in
  let stale_ref : BuildFunc := λ w, ((Some (single_ref_result "r9"), None), w) in
  (requestForRef (client w) None = inl (emptyReq, None)
   ∧ wire (Run nil_ref w).2 = [CallSolve (final_request emptyReq "null")])
  ∧ (requestForRef (client w) (Some (GrpcRef stale)) = inr (did_not_find "r9")
     ∧ wire (Run stale_ref w).2 = []
     ∧ (Run stale_ref w).1 ≠ None
     ∧ (Run stale_ref w).1
       = Some (Wrapf (did_not_find "r9") "failed to find return ref")).
Proof.
  intros w nil_ref stale stale_ref.
  assert (Supports (caps (client w)) CapReturnResult ≠ None) as Hlegacy
    by (vm_compute; discriminate).
  split.
  - destruct (legacy_return_lookup nil_ref w w NewResult "null" Hlegacy
                eq_refl eq_refl eq_refl) as [Hfresh _].
    apply Hfresh. by left.
  - destruct (legacy_return_lookup stale_ref w w (single_ref_result "r9") "null"
                Hlegacy eq_refl eq_refl eq_refl) as [_ [Hmissing _]].
    destruct (Hmissing stale eq_refl ltac:(discriminate) eq_refl)
      as (H1 & H2 & H3 & H4).
    split; [exact H1|split; [exact H2|split; [exact H3|exact (H4 eq_refl)]]].
Defined.

(** C1, evaluated on the code: the peer supports [return]; the build
    function creates a container, which opens the exec stream, and fails with
    [build_failed]; the inbound pump of the stream ends with
    [unavailable].  The multiplexer is released, but [Run] returns the error
    of the release, and that error is what the [Return] call carries:
    [build_failed] is lost. *)
Theorem Run_release_error_replaces_build_error :
  let w := new_world export_caps ∅ in
  let f := container_then (None, Some build_failed) in
  (f w).1 = (None, Some build_failed)
  ∧ (Release (execMsgs (client (f w).2))).1 = Some unavailable
  ∧ (Run f w).1 = Some unavailable
  ∧ canceled (execMsgs (client (Run f w).2)) = true
  ∧ wire (Run f w).2
    = [demo_NewContainer;
       CallReturn {| Return_Result := None; Return_Error := Some unavailable_status |}].
Proof. repeat split. Qed.

(** C6, evaluated on the code: the peer supports [return] but not
    [returnmap]; the build function creates a container, which opens the
    exec stream, and returns a result with two refs; the inbound pump of
    the stream ends with [unavailable].  The guard fails with the capability
    error and the result is not returned, but [Run] returns the error of the
    release, and that error is what the [Return] call carries. *)
Theorem Run_release_error_replaces_capability_error :
  let w := new_world export_caps ∅ in
  let f := container_then (Some two_refs, None) in
  return_map_gate (client (f w).2) two_refs = Some (CapError "returnmap")
  ∧ (Release (execMsgs (client (f w).2))).1 = Some unavailable
  ∧ (Run f w).1 = Some unavailable
  ∧ wire (Run f w).2
    = [demo_NewContainer;
       CallReturn {| Return_Result := None; Return_Error := Some unavailable_status |}].
Proof. repeat split. Qed.

End Evaluated.
